(** * Fuzzy sprinkler controller (src/fuzzy.py) over scikit-fuzzy

    The controller of [src/fuzzy.py] is built from scikit-fuzzy
    ([skfuzzy.trimf], [skfuzzy.control]).  Its numeric pipeline is embedded
    here over exact rationals [Q]:
      - [trimf] samples a triangle on a numpy universe,
      - [interp_membership] is [np.interp],
      - a [Rule] is an antecedent [TermAggregate] with a consequent term,
      - [ControlSystemSimulation.compute] fuzzifies the inputs, fires the rules
        (AND = [np.fmin]), accumulates activations per consequent term
        ([np.fmax]), upsamples the output universe at the cut levels
        ([find_memberships]) and defuzzifies with the area centroid.
    Floats have one bit pattern per value; [fmin]/[fmax] return the reduced
    fraction ([Qred]) so that equal values are equal terms, as with floats. *)

From Stdlib Require Import QArith Qminmax Qreduction Lqa List Lia ZArith
  String Permutation Sorted Bool.
Import ListNotations.
Open Scope string_scope.
Open Scope Q_scope.

(** ** Numeric primitives *)

Definition Qltb (x y : Q) : bool := negb (Qle_bool y x).

(** [np.fmin] / [np.fmax] on two numbers. *)
Definition fmin (x y : Q) : Q := Qred (if Qle_bool x y then x else y).
Definition fmax (x y : Q) : Q := Qred (if Qle_bool y x then x else y).

(** [np.arange(lo, lo + n, 1)] on integers. *)
Fixpoint arange (lo : Z) (n : nat) : list Q :=
  match n with
  | O => []
  | S n' => inject_Z lo :: arange (lo + 1)%Z n'
  end.

(** ** [skfuzzy.trimf] *)

(** One element of [trimf(x, [a, b, c])]: [y] starts at zero, the left side
    [a < x < b] (when [a <> b]) and the right side [b < x < c] (when
    [b <> c]) are written, and finally [y[x == b] = 1]. *)
Definition trimf_at (a b c x : Q) : Q :=
  if Qeq_bool x b then 1
  else if negb (Qeq_bool a b) && Qltb a x && Qltb x b then (x - a) / (b - a)
  else if negb (Qeq_bool b c) && Qltb b x && Qltb x c then (c - x) / (c - b)
  else 0.

(** The assertion [a <= b and b <= c] of [trimf]. *)
Definition trimf_args_ok (a b c : Q) : bool := Qle_bool a b && Qle_bool b c.

(** [trimf(x, abc)], elementwise over the universe [x]. *)
Definition trimf (x : list Q) (abc : Q * Q * Q) : list Q :=
  let '(a, b, c) := abc in map (trimf_at a b c) x.

(** ** [np.interp] / [skfuzzy.interp_membership] *)

(** [np.interp(x, xp, fp)] on the zipped points [(xp[i], fp[i])]: left of
    the first point the first value, right of the last point the last value,
    and in between the linear interpolation on the segment containing [x]. *)
Fixpoint interp_pts (x : Q) (pts : list (Q * Q)) : Q :=
  match pts with
  | [] => 0
  | [(_, y)] => y
  | (x1, y1) :: ((x2, y2) :: _) as rest =>
      if Qle_bool x x1 then y1
      else if Qltb x x2 then y1 + (x - x1) * (y2 - y1) / (x2 - x1)
      else interp_pts x rest
  end.

Definition interp_membership (universe mf : list Q) (x : Q) : Q :=
  interp_pts x (combine universe mf).

(** ** Fuzzy variables, terms and rules ([skfuzzy.control]) *)

Record FuzzyVariable := mkVariable {
  label : string;
  universe : list Q;
  terms : list (string * list Q)   (* OrderedDict label -> mf *)
}.

(** [Term], [a & b], [a | b], [~a] of [skfuzzy.control]. *)
Inductive TermAggregate :=
| TTerm (var : string) (term : string)
| TAnd (t1 t2 : TermAggregate)
| TOr (t1 t2 : TermAggregate)
| TNot (t : TermAggregate).

(** [ctrl.Rule(antecedent, consequent)]: the consequent is a term of the
    single consequent variable, with weight [1.0]. *)
Record Rule := mkRule {
  antecedent : TermAggregate;
  consequent : string
}.

Definition rule_weight : Q := 1.

Fixpoint assoc {A} (k : string) (l : list (string * A)) : option A :=
  match l with
  | [] => None
  | (k', v) :: t => if String.eqb k k' then Some v else assoc k t
  end.

(** ** The controller of src/fuzzy.py, lines 15-37 *)

Definition soil_universe : list Q := arange 0 101.
Definition temp_universe : list Q := arange 0 51.
Definition water_universe : list Q := arange 0 101.

Definition soil_moisture : FuzzyVariable :=
  mkVariable "Soil Moisture" soil_universe
    [("dry", trimf soil_universe (0, 0, 50));
     ("moist", trimf soil_universe (20, 50, 80));
     ("wet", trimf soil_universe (50, 100, 100))].

Definition temperature : FuzzyVariable :=
  mkVariable "Temperature" temp_universe
    [("cold", trimf temp_universe (0, 0, 20));
     ("warm", trimf temp_universe (10, 25, 40));
     ("hot", trimf temp_universe (30, 50, 50))].

Definition water_sprinkle : FuzzyVariable :=
  mkVariable "Water Sprinkling" water_universe
    [("low", trimf water_universe (0, 0, 50));
     ("medium", trimf water_universe (20, 50, 80));
     ("high", trimf water_universe (50, 100, 100))].

Definition rule1 := mkRule (TAnd (TTerm "Soil Moisture" "dry") (TTerm "Temperature" "hot")) "high".
Definition rule2 := mkRule (TAnd (TTerm "Soil Moisture" "dry") (TTerm "Temperature" "warm")) "medium".
Definition rule3 := mkRule (TAnd (TTerm "Soil Moisture" "moist") (TTerm "Temperature" "warm")) "medium".
Definition rule4 := mkRule (TAnd (TTerm "Soil Moisture" "moist") (TTerm "Temperature" "cold")) "low".
Definition rule5 := mkRule (TTerm "Soil Moisture" "wet") "low".

Definition rule_base : list Rule := [rule1; rule2; rule3; rule4; rule5].

Definition antecedents : list FuzzyVariable := [soil_moisture; temperature].

(** ** Inputs ([ControlSystemSimulation.input]) *)

Fixpoint list_max (d : Q) (l : list Q) : Q :=
  match l with [] => d | x :: t => list_max (if Qltb d x then x else d) t end.
Fixpoint list_min (d : Q) (l : list Q) : Q :=
  match l with [] => d | x :: t => list_min (if Qltb x d then x else d) t end.

(** [InputDict.__setitem__] with [clip_to_bounds=True]: the value is clipped
    to [universe.min(), universe.max()] and stored (as a float: one
    representation per value, here the reduced fraction). *)
Definition clip_to_bounds (v : FuzzyVariable) (x : Q) : Q :=
  match universe v with
  | [] => x
  | u0 :: us =>
      let maxval := list_max u0 us in
      let minval := list_min u0 us in
      if Qltb maxval x then maxval else if Qltb x minval then minval else x
  end.

Definition Inputs := list (string * Q).

Definition input_value (v : FuzzyVariable) (x : Q) : Q := Qred (clip_to_bounds v x).

Definition set_input (inp : Inputs) (v : FuzzyVariable) (x : Q) : Inputs :=
  (label v, input_value v x)
    :: filter (fun p => negb (String.eqb (fst p) (label v))) inp.

(** ** Fuzzification and rule firing *)

(** [CrispValueCalculator.fuzz]: the degree of every term at the input. *)
Definition fuzz (v : FuzzyVariable) (x : Q) : list (string * Q) :=
  map (fun p => (fst p, interp_membership (universe v) (snd p) x)) (terms v).

Definition Memberships := list (string * list (string * Q)).

(** "All antecedents must have input values!" *)
Fixpoint fuzz_all (vs : list FuzzyVariable) (inp : Inputs) : option Memberships :=
  match vs with
  | [] => Some []
  | v :: vs' =>
      match assoc (label v) inp, fuzz_all vs' inp with
      | Some x, Some m => Some ((label v, fuzz v x) :: m)
      | _, _ => None
      end
  end.

(** [TermAggregate.membership_value] with [and_func = np.fmin],
    [or_func = np.fmax] and NOT as [1 - x]. *)
Fixpoint membership_value (m : Memberships) (t : TermAggregate) : option Q :=
  match t with
  | TTerm v l => match assoc v m with Some ds => assoc l ds | None => None end
  | TAnd t1 t2 =>
      match membership_value m t1, membership_value m t2 with
      | Some a, Some b => Some (fmin a b) | _, _ => None end
  | TOr t1 t2 =>
      match membership_value m t1, membership_value m t2 with
      | Some a, Some b => Some (fmax a b) | _, _ => None end
  | TNot t1 => option_map (fun a => 1 - a) (membership_value m t1)
  end.

(** Membership values of the consequent terms ([term.membership_value]),
    [None] while no rule has reached the term. *)
Definition Cuts := list (string * option Q).

(** Step 3 of [compute_rule] (accumulation): a new activation [value] of
    [term] is stored, or combined with the stored one by the variable's
    [accumulation_method = np.fmax] as [fmax(value, old)]. *)
Definition accum_value (value : Q) (old : option Q) : Q :=
  match old with None => value | Some w => fmax value w end.

Definition accumulate (cuts : Cuts) (term : string) (value : Q) : Cuts :=
  map (fun p =>
         if String.eqb (fst p) term then (fst p, Some (accum_value value (snd p))) else p) cuts.

(** [compute_rule]: aggregation (firing strength), activation (times the
    weight) and accumulation. *)
Definition compute_rule (m : Memberships) (cuts : option Cuts) (r : Rule) : option Cuts :=
  match cuts, membership_value m (antecedent r) with
  | Some cs, Some firing => Some (accumulate cs (consequent r) (firing * rule_weight))
  | _, _ => None
  end.

Definition compute_rules (m : Memberships) (rs : list Rule) (cuts : Cuts) : option Cuts :=
  fold_left (compute_rule m) rs (Some cuts).

(** Fresh simulation state: no consequent term has a membership value. *)
Definition fresh_cuts (v : FuzzyVariable) : Cuts :=
  map (fun p => (fst p, None)) (terms v).

(** The firing strength of a rule ([rule.aggregate_firing]). *)
Definition firing (m : Memberships) (r : Rule) : option Q :=
  membership_value m (antecedent r).

(** ** Upsampling and aggregation ([CrispValueCalculator.find_memberships]) *)

(** [interp_universe_fast(x, xmf, y)]: the universe points, interpolated
    on a segment of the sampled term, where the term crosses the cut level
    [y] strictly between two samples.  (Crossings at a sample are sample
    points, which [union1d] already has.) *)
Fixpoint crossings (y : Q) (pts : list (Q * Q)) : list Q :=
  match pts with
  | (x1, y1) :: (((x2, y2) :: _) as rest) =>
      if (Qltb y1 y && Qltb y y2) || (Qltb y y1 && Qltb y2 y)
      then (x1 + (y - y1) * (x2 - x1) / (y2 - y1)) :: crossings y rest
      else crossings y rest
  | _ => []
  end.

Definition interp_universe_fast (x xmf : list Q) (y : Q) : list Q :=
  crossings y (combine x xmf).

(** Sorted insertion without duplicates. *)
Fixpoint insert_uniq (y : Q) (l : list Q) : list Q :=
  match l with
  | [] => [y]
  | x :: t =>
      if Qeq_bool y x then l
      else if Qle_bool y x then y :: l
      else x :: insert_uniq y t
  end.

(** [np.union1d(a, b)]: the sorted unique values of [a ++ b]. *)
Definition union1d (a b : list Q) : list Q := fold_right insert_uniq [] (a ++ b).

(** The new sample points of every term that has a membership value. *)
Definition new_values (v : FuzzyVariable) (cuts : Cuts) : list Q :=
  flat_map (fun p =>
              match assoc (fst p) cuts with
              | Some (Some cut) => interp_universe_fast (universe v) (snd p) cut
              | _ => []
              end) (terms v).

Definition new_universe (v : FuzzyVariable) (cuts : Cuts) : list Q :=
  union1d (universe v) (new_values v cuts).

(** The aggregated output at one point: [output_mf] starts at zero and for
    every term with a membership value [np.maximum(output_mf,
    np.minimum(cut, upsampled_mf))] (numpy's elementwise operations, taken
    here at one element). *)
Definition output_at (v : FuzzyVariable) (cuts : Cuts) (x : Q) : Q :=
  fold_left (fun acc p =>
               match assoc (fst p) cuts with
               | Some (Some cut) => fmax acc (fmin cut (interp_membership (universe v) (snd p) x))
               | _ => acc
               end) (terms v) 0.

Definition output_mf (v : FuzzyVariable) (cuts : Cuts) : list Q :=
  map (output_at v cuts) (new_universe v cuts).

(** [cut_mfs]: the labels of the terms with a membership value. *)
Definition cut_terms (v : FuzzyVariable) (cuts : Cuts) : list string :=
  flat_map (fun p => match assoc (fst p) cuts with
                     | Some (Some _) => [fst p] | _ => [] end) (terms v).

(** ** Defuzzification ([skfuzzy.defuzz], mode ['centroid']) *)

(** [np.finfo(float).eps] *)
Definition eps : Q := 1 # (2 ^ 52).

(** One segment of [centroid]: [None] for a segment of zero height or
    width, else its moment and area (rectangle, the two triangles, or the
    general trapezoid). *)
Definition segment (x1 y1 x2 y2 : Q) : option (Q * Q) :=
  if (Qeq_bool y1 y2 && Qeq_bool y2 0) || Qeq_bool x1 x2 then None
  else if Qeq_bool y1 y2 then Some ((1 # 2) * (x1 + x2), (x2 - x1) * y1)
  else if Qeq_bool y1 0 && negb (Qeq_bool y2 0)
  then Some ((2 # 3) * (x2 - x1) + x1, (1 # 2) * (x2 - x1) * y2)
  else if Qeq_bool y2 0 && negb (Qeq_bool y1 0)
  then Some ((1 # 3) * (x2 - x1) + x1, (1 # 2) * (x2 - x1) * y1)
  else Some (((2 # 3) * (x2 - x1) * (y2 + (1 # 2) * y1)) / (y1 + y2) + x1,
             (1 # 2) * (x2 - x1) * (y1 + y2)).

(** The loop [for i in range(1, len(x))] accumulating
    [sum_moment_area] and [sum_area]. *)
Fixpoint centroid_loop (pts : list (Q * Q)) (sma sa : Q) : Q * Q :=
  match pts with
  | (x1, y1) :: (((x2, y2) :: _) as rest) =>
      match segment x1 y1 x2 y2 with
      | Some (moment, area) => centroid_loop rest (sma + moment * area) (sa + area)
      | None => centroid_loop rest sma sa
      end
  | _ => (sma, sa)
  end.

Definition centroid (x mf : list Q) : Q :=
  match combine x mf with
  | [(x0, m0)] => x0 * m0 / fmax m0 eps
  | pts => let '(sma, sa) := centroid_loop pts 0 0 in sma / fmax sa eps
  end.

Definition Qsum (l : list Q) : Q := fold_left Qplus l 0.

Inductive Error :=
| MissingInput       (* "All antecedents must have input values!" *)
| UnknownTerm        (* a rule refers to a term that has no value *)
| NoTermMemberships  (* "No terms have memberships." *)
| ZeroArea.          (* "Crisp output cannot be calculated ..." *)

(** [CrispValueCalculator.defuzz]: the assertion of [defuzz] that the
    total truth degree is not zero becomes the ValueError [ZeroArea]. *)
Definition defuzz (v : FuzzyVariable) (cuts : Cuts) : Error + Q :=
  match cut_terms v cuts with
  | [] => inl NoTermMemberships
  | _ =>
      let x := new_universe v cuts in
      let mf := map (output_at v cuts) x in
      if Qeq_bool (Qsum mf) 0 then inl ZeroArea
      else inr (centroid x mf)
  end.

(** ** [ControlSystemSimulation.compute] on a fresh simulation *)

Definition infer (rules : list Rule) (inp : Inputs) : Error + Q :=
  match fuzz_all antecedents inp with
  | None => inl MissingInput
  | Some m =>
      match compute_rules m rules (fresh_cuts water_sprinkle) with
      | None => inl UnknownTerm
      | Some cuts => defuzz water_sprinkle cuts
      end
  end.

(** The inputs of one test case: [sprinkler.input['Soil Moisture'] = soil],
    [sprinkler.input['Temperature'] = temp]. *)
Definition inputs_of (soil temp : Q) : Inputs :=
  set_input (set_input [] soil_moisture soil) temperature temp.

Definition run (soil temp : Q) : Error + Q := infer rule_base (inputs_of soil temp).

(** The firing strength of a rule with the memberships of given inputs. *)
Definition memberships (inp : Inputs) : option Memberships := fuzz_all antecedents inp.

(** The degree of the term [l] of [v] at [x] ([interp_membership] on the
    term's sampled curve). *)
Definition term_mf (v : FuzzyVariable) (l : string) : list Q :=
  match assoc l (terms v) with Some mf => mf | None => [] end.

Definition degree (v : FuzzyVariable) (l : string) (x : Q) : Q :=
  interp_membership (universe v) (term_mf v l) x.

(** Mamdani clipping of one rule's consequent at [x], and the pointwise
    maximum of the clipped curves over a rule list. *)
Definition clipped (m : Memberships) (r : Rule) (x : Q) : Q :=
  match firing m r with
  | Some f => fmin (f * rule_weight) (degree water_sprinkle (consequent r) x)
  | None => 0
  end.

Definition rulewise_aggregate (m : Memberships) (rs : list Rule) (x : Q) : Q :=
  fold_left (fun acc r => fmax acc (clipped m r x)) rs 0.

(** The memberships stored for the inputs of one test case. *)
Definition mems_of (soil temp : Q) : Memberships :=
  [("Soil Moisture", fuzz soil_moisture (input_value soil_moisture soil));
   ("Temperature", fuzz temperature (input_value temperature temp))].

(** The consequent memberships accumulated on a fresh simulation. *)
Definition cuts_of (inp : Inputs) : option Cuts :=
  match memberships inp with
  | Some m => compute_rules m rule_base (fresh_cuts water_sprinkle)
  | None => None
  end.

(** The discrete centroid [sum(x_i * mf_i) / sum(mf_i)] over sample points. *)
Definition discrete_centroid (x mf : list Q) : Q :=
  Qsum (map (fun p => fst p * snd p) (combine x mf)) / Qsum mf.

(** ** The simulation object ([ControlSystemSimulation], [cache=True])

    What a simulation keeps between calls of [compute]: the current inputs,
    and, per [unique_id] (the current inputs), the membership values of the
    consequent terms, the defuzzified output, and the list [_calculated] of
    the input sets already computed. *)
Record Sim := mkSim {
  sim_inputs : Inputs;
  sim_cuts : list (Inputs * Cuts);
  sim_outputs : list (Inputs * Q);
  sim_calculated : list Inputs;
  sim_run : nat
}.

Definition new_sim : Sim := mkSim [] [] [] [] 0.

Definition flush_after_run : nat := 1000.

Definition Q_eqb (x y : Q) : bool := Z.eqb (Qnum x) (Qnum y) && Pos.eqb (Qden x) (Qden y).

Fixpoint inputs_eqb (a b : Inputs) : bool :=
  match a, b with
  | [], [] => true
  | (l1, x1) :: a', (l2, x2) :: b' => String.eqb l1 l2 && Q_eqb x1 x2 && inputs_eqb a' b'
  | _, _ => false
  end.

Fixpoint lookup_key {A} (k : Inputs) (l : list (Inputs * A)) : option A :=
  match l with
  | [] => None
  | (k', v) :: t => if inputs_eqb k k' then Some v else lookup_key k t
  end.

(** [term.membership_value[self] = None] for the consequent of the first
    rule, before the rules are computed. *)
Definition reset_first (rs : list Rule) (cuts : Cuts) : Cuts :=
  match rs with
  | [] => cuts
  | r :: _ =>
      map (fun p => if String.eqb (fst p) (consequent r) then (fst p, None) else p) cuts
  end.

(** [_reset_simulation]: the per-simulation caches are cleared. *)
Definition flush (s : Sim) : Sim :=
  mkSim (sim_inputs s) [] [] [] (sim_run s).

(** [ControlSystemSimulation.compute()]: a cached input set returns the
    stored output; otherwise the stored membership values of this input set
    (if any) are reused, the first rule's consequent is reset, the rules are
    computed and the output variable defuzzified; a successful run is
    recorded in [_calculated], and every [flush_after_run] runs the caches
    are flushed. *)
Definition sim_compute (s : Sim) : (Error + Q) * Sim :=
  let key := sim_inputs s in
  match (if existsb (inputs_eqb key) (sim_calculated s)
         then lookup_key key (sim_outputs s) else None) with
  | Some o => (inr o, s)
  | None =>
      match memberships key with
      | None => (inl MissingInput, s)
      | Some m =>
          let stored := match lookup_key key (sim_cuts s) with
                        | Some c => c | None => fresh_cuts water_sprinkle end in
          match compute_rules m rule_base (reset_first rule_base stored) with
          | None => (inl UnknownTerm, s)
          | Some cuts =>
              let s1 := mkSim key ((key, cuts) :: sim_cuts s) (sim_outputs s)
                              (sim_calculated s) (sim_run s) in
              match defuzz water_sprinkle cuts with
              | inl e => (inl e, s1)
              | inr o =>
                  let s2 := mkSim key ((key, cuts) :: sim_cuts s) ((key, o) :: sim_outputs s)
                                  (key :: sim_calculated s) (S (sim_run s)) in
                  (inr o, if Nat.eqb (Nat.modulo (S (sim_run s)) flush_after_run) 0
                          then flush s2 else s2)
              end
          end
      end
  end.

(** One test case of the driver loop: set both inputs, then [compute()]. *)
Definition sim_step (s : Sim) (case : Q * Q) : (Error + Q) * Sim :=
  let inp := set_input (set_input (sim_inputs s) soil_moisture (fst case)) temperature (snd case) in
  sim_compute (mkSim inp (sim_cuts s) (sim_outputs s) (sim_calculated s) (sim_run s)).

Fixpoint sim_steps (s : Sim) (cases : list (Q * Q)) : Sim :=
  match cases with
  | [] => s
  | c :: cs => sim_steps (snd (sim_step s c)) cs
  end.

(** A successful crisp output satisfying [P]. *)
Definition crisp_in (r : Error + Q) (P : Q -> Prop) : Prop :=
  match r with inr v => P v | inl _ => False end.

(** The number of a successful crisp output ([0] for an error). *)
Definition crisp_of (r : Error + Q) : Q :=
  match r with inr v => v | inl _ => 0 end.

(** The crisp output as the specification describes it: the discrete
    centroid of the aggregated curve over the sample points [0, 1, ..., 100]
    of the output universe. *)
Definition spec_discrete_output (inp : Inputs) : option Q :=
  match cuts_of inp with
  | Some cuts => Some (discrete_centroid water_universe (map (output_at water_sprinkle cuts) water_universe))
  | None => None
  end.

(** Every term of a variable is a [trimf] on its universe with ordered
    breakpoints. *)
Definition triangular_terms (v : FuzzyVariable) : Prop :=
  Forall (fun p => exists a b c, a <= b /\ b <= c /\ snd p = trimf (universe v) (a, b, c))
         (terms v).

(** What a simulation may hold: the current inputs are those of a test
    case (or none yet), and every stored membership set and output is the
    one an inference on a fresh simulation gives for its key. *)
Definition sim_inv (s : Sim) : Prop :=
  (sim_inputs s = [] \/ exists x y, sim_inputs s = inputs_of x y) /\
  (forall k c, In (k, c) (sim_cuts s) -> cuts_of k = Some c) /\
  (forall k o, In (k, o) (sim_outputs s) -> infer rule_base k = inr o).


(** The simulation's caches against its run counter. *)
Definition cache_inv (s : Sim) : Prop :=
  List.length (sim_calculated s) = Nat.modulo (sim_run s) flush_after_run /\
  List.length (sim_outputs s) = List.length (sim_calculated s).

(** * Proofs *)

(** ** Boolean comparisons and the min/max primitives *)

Lemma Qltb_iff x y : Qltb x y = true <-> x < y.
Proof.
  unfold Qltb. rewrite negb_true_iff. split; intro H.
  - apply Qnot_le_lt. intro H'. apply Qle_bool_iff in H'. congruence.
  - destruct (Qle_bool y x) eqn:E; [|reflexivity].
    apply Qle_bool_iff in E. exfalso. apply (Qlt_not_le x y); assumption.
Qed.

Lemma Qltb_false x y : Qltb x y = false <-> y <= x.
Proof.
  unfold Qltb. rewrite negb_false_iff. apply Qle_bool_iff.
Qed.

Lemma Qle_bool_false x y : Qle_bool x y = false <-> y < x.
Proof.
  split; intro H.
  - apply Qnot_le_lt. intro H'. apply Qle_bool_iff in H'. congruence.
  - destruct (Qle_bool x y) eqn:E; [|reflexivity].
    apply Qle_bool_iff in E. exfalso. apply (Qlt_not_le y x); assumption.
Qed.

(** Turn the boolean tests in the hypotheses into propositions. *)
Ltac qbool :=
  repeat match goal with
  | H : Qeq_bool _ _ = true |- _ => apply Qeq_bool_iff in H
  | H : Qeq_bool _ _ = false |- _ => apply Qeq_bool_neq in H
  | H : Qle_bool _ _ = true |- _ => apply Qle_bool_iff in H
  | H : Qle_bool _ _ = false |- _ => apply Qle_bool_false in H
  | H : Qltb _ _ = true |- _ => apply Qltb_iff in H
  | H : Qltb _ _ = false |- _ => apply Qltb_false in H
  | H : negb _ = true |- _ => apply negb_true_iff in H
  | H : negb _ = false |- _ => apply negb_false_iff in H
  | H : (_ && _)%bool = true |- _ => apply andb_true_iff in H; destruct H
  | H : (_ || _)%bool = false |- _ => apply orb_false_iff in H; destruct H
  end.

Ltac qcompare_prop :=
  match goal with
  | C : Qcompare _ _ = Lt |- _ => apply (proj2 (Qlt_alt _ _)) in C
  | C : Qcompare _ _ = Eq |- _ => apply (proj2 (Qeq_alt _ _)) in C
  | C : Qcompare _ _ = Gt |- _ => apply (proj2 (Qgt_alt _ _)) in C
  end.

Lemma fmax_Qred x y : fmax x y = Qred (Qmax x y).
Proof.
  unfold fmax, Qmax, GenericMinMax.gmax. f_equal.
  destruct (Qle_bool y x) eqn:E; qbool; destruct (Qcompare x y) eqn:C; try reflexivity;
    qcompare_prop; exfalso; lra.
Qed.

Lemma fmin_Qred x y : fmin x y = Qred (Qmin x y).
Proof.
  unfold fmin, Qmin, GenericMinMax.gmin. f_equal.
  destruct (Qle_bool x y) eqn:E; qbool; destruct (Qcompare x y) eqn:C; try reflexivity;
    qcompare_prop; exfalso; lra.
Qed.

Lemma fmax_spec x y : (y <= x /\ fmax x y == x) \/ (x < y /\ fmax x y == y).
Proof.
  unfold fmax. destruct (Qle_bool y x) eqn:E; qbool; rewrite Qred_correct; [left|right]; split;
    try assumption; reflexivity.
Qed.

Lemma fmin_spec x y : (x <= y /\ fmin x y == x) \/ (y < x /\ fmin x y == y).
Proof.
  unfold fmin. destruct (Qle_bool x y) eqn:E; qbool; rewrite Qred_correct; [left|right]; split;
    try assumption; reflexivity.
Qed.

(** [fmin]/[fmax] respect [==] and give the same term for equal values. *)
Lemma fmax_compat x x' y y' : x == x' -> y == y' -> fmax x y = fmax x' y'.
Proof.
  intros Hx Hy. rewrite !fmax_Qred. apply Qred_complete. rewrite Hx, Hy. reflexivity.
Qed.

Lemma fmin_compat x x' y y' : x == x' -> y == y' -> fmin x y = fmin x' y'.
Proof.
  intros Hx Hy. rewrite !fmin_Qred. apply Qred_complete. rewrite Hx, Hy. reflexivity.
Qed.

Lemma fmax_comm x y : fmax x y = fmax y x.
Proof.
  rewrite !fmax_Qred. apply Qred_complete. apply Q.max_comm.
Qed.

Lemma Qred_Qred x : Qred (Qred x) = Qred x.
Proof. apply Qred_complete. apply Qred_correct. Qed.

(** ** C1: the four scenarios, computed *)

Lemma rule_weight_r x : x * rule_weight = x.
Proof.
  destruct x as [n d]. unfold rule_weight, Qmult. simpl.
  rewrite Z.mul_1_r, Pos.mul_1_r. reflexivity.
Qed.

(** C1: with the configured rule base and triangular terms, the four
    scenarios of the spec give crisp outputs in their bands: (10, 40) above
    65, (90, 15) below 20, (50, 25) between 35 and 55, (50, 10) below 25. *)
Theorem C1_scenario_bands :
  crisp_in (run 10 40) (fun v => 65 < v) /\
  crisp_in (run 90 15) (fun v => v < 20) /\
  crisp_in (run 50 25) (fun v => 35 <= v <= 55) /\
  crisp_in (run 50 10) (fun v => v < 25).
Proof.
  split; [|split; [|split]]; vm_compute; repeat split; try reflexivity; discriminate.
Qed.

(** ** Triangular membership functions *)

Lemma div_unit p q : 0 <= p -> p <= q -> 0 < q -> 0 <= p / q <= 1.
Proof.
  intros H1 H2 H3. split.
  - apply Qle_shift_div_l; [assumption|]. lra.
  - apply Qle_shift_div_r; [assumption|]. lra.
Qed.

Lemma div_zero_num p q : p == 0 -> p / q == 0.
Proof. intro H. unfold Qdiv. rewrite H. apply Qmult_0_l. Qed.

Lemma div_same p q : p == q -> 0 < q -> p / q == 1.
Proof.
  intros H H'. unfold Qdiv. rewrite H. apply Qmult_inv_r. intro E. lra.
Qed.

(** The four branches of [trimf_at]. *)
Lemma trimf_at_cases a b c x : a <= b -> b <= c ->
  (x == b /\ trimf_at a b c x = 1) \/
  (a < x < b /\ trimf_at a b c x = (x - a) / (b - a)) \/
  (b < x < c /\ trimf_at a b c x = (c - x) / (c - b)) \/
  ((x <= a \/ c <= x) /\ ~ x == b /\ trimf_at a b c x = 0).
Proof.
  intros Hab Hbc. unfold trimf_at.
  destruct (Qeq_bool x b) eqn:E1; qbool; [left; split; [assumption|reflexivity]|].
  destruct (negb (Qeq_bool a b) && Qltb a x && Qltb x b) eqn:E2;
    [right; left; qbool; split; [split; assumption|reflexivity]|].
  destruct (negb (Qeq_bool b c) && Qltb b x && Qltb x c) eqn:E3;
    [right; right; left; qbool; split; [split; assumption|reflexivity]|].
  right; right; right. split; [|split; [assumption|reflexivity]].
  apply andb_false_iff in E2. apply andb_false_iff in E3.
  destruct (Qlt_le_dec x b) as [Hxb|Hxb].
  - left. destruct E2 as [E2|E2]; [apply andb_false_iff in E2; destruct E2 as [E2|E2]|]; qbool;
      lra.
  - right. destruct E3 as [E3|E3]; [apply andb_false_iff in E3; destruct E3 as [E3|E3]|]; qbool;
      lra.
Qed.

(** C2: for breakpoints [a <= b <= c], the degree of [trimf] at any [x] is
    0 outside [[a, c]], rises linearly from 0 to 1 on [[a, b]] (when
    [a < b]), falls linearly from 1 to 0 on [[b, c]] (when [b < c]), is 1 at
    [b], and lies in [[0, 1]]; with [a = b] it is the falling ramp alone on
    [[a, c]], with [b = c] the rising ramp alone. *)
Theorem C2_trimf_shape (a b c x : Q) (Hab : a <= b) (Hbc : b <= c) :
  ((x < a \/ c < x) -> trimf_at a b c x == 0) /\
  (a < b -> a <= x <= b -> trimf_at a b c x == (x - a) / (b - a)) /\
  (b < c -> b <= x <= c -> trimf_at a b c x == (c - x) / (c - b)) /\
  trimf_at a b c b == 1 /\
  (0 <= trimf_at a b c x <= 1) /\
  (a == b -> b < c -> a <= x <= c -> trimf_at a b c x == (c - x) / (c - b)) /\
  (b == c -> a < b -> a <= x <= c -> trimf_at a b c x == (x - a) / (b - a)).
Proof.
  assert (Hup : a < b -> a <= x <= b -> trimf_at a b c x == (x - a) / (b - a)).
  { intros Hlt [H1 H2].
    destruct (trimf_at_cases a b c x Hab Hbc) as [[E T]|[[E T]|[[E T]|[[E|E] [Nb T]]]]];
      rewrite T.
    - symmetry. apply div_same; lra.
    - reflexivity.
    - lra.
    - symmetry. apply div_zero_num. lra.
    - exfalso. apply Nb. lra. }
  assert (Hdown : b < c -> b <= x <= c -> trimf_at a b c x == (c - x) / (c - b)).
  { intros Hlt [H1 H2].
    destruct (trimf_at_cases a b c x Hab Hbc) as [[E T]|[[E T]|[[E T]|[[E|E] [Nb T]]]]];
      rewrite T.
    - symmetry. apply div_same; lra.
    - lra.
    - reflexivity.
    - exfalso. apply Nb. lra.
    - symmetry. apply div_zero_num. lra. }
  split; [|split; [exact Hup|split; [exact Hdown|split; [|split; [|split]]]]].
  - intros Hout.
    destruct (trimf_at_cases a b c x Hab Hbc) as [[E T]|[[E T]|[[E T]|[_ [_ T]]]]];
      rewrite T; try reflexivity; exfalso; lra.
  - unfold trimf_at. rewrite Qeq_bool_refl. reflexivity.
  - destruct (trimf_at_cases a b c x Hab Hbc) as [[E T]|[[E T]|[[E T]|[_ [_ T]]]]];
      rewrite T.
    + lra.
    + apply div_unit; lra.
    + apply div_unit; lra.
    + lra.
  - intros E Hlt Hx. apply Hdown; [assumption|]. lra.
  - intros E Hlt Hx. apply Hup; [assumption|]. lra.
Qed.

(** A witness: the pair [dry] on the soil universe, [(0, 0, 50)] at 10. *)
Lemma C2_trimf_shape_witness :
  trimf_at 0 0 50 10 == 4 # 5 /\ trimf_at 0 0 50 10 == (50 - 10) / (50 - 0).
Proof.
  split; [vm_compute; reflexivity|].
  refine (proj1 (proj2 (proj2 (proj2 (proj2 (proj2
           (C2_trimf_shape 0 0 50 10 _ _)))))) _ _ _); vm_compute; try discriminate;
    split; discriminate.
Defined.

(** ** Interpolation of sampled curves *)

Lemma trimf_at_range a b c x : a <= b -> b <= c -> 0 <= trimf_at a b c x <= 1.
Proof.
  intros Hab Hbc.
  destruct (trimf_at_cases a b c x Hab Hbc) as [[E T]|[[E T]|[[E T]|[_ [_ T]]]]];
    rewrite T.
  - lra.
  - apply div_unit; lra.
  - apply div_unit; lra.
  - lra.
Qed.

(** A linear interpolation strictly inside a segment stays between the
    values at its ends. *)
Lemma lerp_range lo hi x x1 x2 y1 y2 :
  lo <= y1 <= hi -> lo <= y2 <= hi -> x1 < x -> x < x2 ->
  lo <= y1 + (x - x1) * (y2 - y1) / (x2 - x1) <= hi.
Proof.
  intros H1 H2 Hx1 Hx2.
  set (t := (x - x1) / (x2 - x1)).
  assert (Ht : 0 <= t <= 1) by (apply div_unit; lra).
  assert (E : (x - x1) * (y2 - y1) / (x2 - x1) == t * (y2 - y1)).
  { unfold t, Qdiv. ring. }
  rewrite E.
  assert (0 <= (1 - t) * (y1 - lo)) by (apply Qmult_le_0_compat; lra).
  assert (0 <= t * (y2 - lo)) by (apply Qmult_le_0_compat; lra).
  assert (0 <= (1 - t) * (hi - y1)) by (apply Qmult_le_0_compat; lra).
  assert (0 <= t * (hi - y2)) by (apply Qmult_le_0_compat; lra).
  split; nra.
Qed.

Lemma interp_pts_range lo hi x pts :
  lo <= 0 <= hi -> Forall (fun p => lo <= snd p <= hi) pts -> lo <= interp_pts x pts <= hi.
Proof.
  intros H0 HF. induction pts as [|[x1 y1] rest IH]; [exact H0|].
  inversion HF as [|? ? Hp Hrest]; subst. simpl in Hp.
  destruct rest as [|[x2 y2] rest']; [exact Hp|].
  inversion Hrest as [|? ? Hp2 _]; subst. simpl in Hp2.
  cbn [interp_pts].
  destruct (Qle_bool x x1) eqn:E1; [exact Hp|].
  destruct (Qltb x x2) eqn:E2; [|exact (IH Hrest)].
  qbool. apply lerp_range; assumption.
Qed.

Lemma combine_map_same {B} (u : list Q) (f : Q -> B) :
  combine u (map f u) = map (fun y => (y, f y)) u.
Proof. induction u as [|y u IH]; simpl; [reflexivity|rewrite IH; reflexivity]. Qed.

Lemma interp_trimf_range u a b c x : a <= b -> b <= c ->
  0 <= interp_membership u (trimf u (a, b, c)) x <= 1.
Proof.
  intros Hab Hbc. unfold interp_membership, trimf. rewrite combine_map_same.
  apply interp_pts_range; [lra|].
  apply Forall_forall. intros p Hp. apply in_map_iff in Hp. destruct Hp as [y [<- _]].
  apply trimf_at_range; assumption.
Qed.

Ltac tri_term := eexists _, _, _; split; [|split; [|reflexivity]]; discriminate.

Lemma soil_moisture_triangular : triangular_terms soil_moisture.
Proof. repeat constructor; tri_term. Qed.

Lemma temperature_triangular : triangular_terms temperature.
Proof. repeat constructor; tri_term. Qed.

Lemma water_sprinkle_triangular : triangular_terms water_sprinkle.
Proof. repeat constructor; tri_term. Qed.

Lemma assoc_in {A} (l : string) (xs : list (string * A)) (v : A) :
  assoc l xs = Some v -> In (l, v) xs.
Proof.
  induction xs as [|[k w] xs IH]; simpl; [discriminate|].
  destruct (String.eqb l k) eqn:E; [|intros H; right; apply IH; exact H].
  intros H. inversion H; subst. apply String.eqb_eq in E. subst. left. reflexivity.
Qed.

Lemma degree_range v l x : triangular_terms v -> 0 <= degree v l x <= 1.
Proof.
  intros Ht. unfold degree, term_mf.
  destruct (assoc l (terms v)) as [mf|] eqn:E.
  - apply assoc_in in E. unfold triangular_terms in Ht. rewrite Forall_forall in Ht.
    destruct (Ht _ E) as [a [b [c [Hab [Hbc Hmf]]]]]. simpl in Hmf. rewrite Hmf.
    apply interp_trimf_range; assumption.
  - unfold interp_membership. destruct (universe v); simpl; lra.
Qed.

(** ** Firing strengths *)

Ltac fz := cbn [firing membership_value antecedent consequent rule1 rule2 rule3 rule4 rule5 assoc
     String.eqb Ascii.eqb Bool.eqb fuzz map fst snd terms universe label
     soil_moisture temperature water_sprinkle].

Lemma memberships_inputs_of soil temp :
  memberships (inputs_of soil temp) = Some (mems_of soil temp).
Proof. reflexivity. Qed.

Lemma assoc_fuzz v l x d :
  assoc l (fuzz v x) = Some d -> exists mf, assoc l (terms v) = Some mf /\
                                     d = interp_membership (universe v) mf x.
Proof.
  unfold fuzz. induction (terms v) as [|[k mf] ts IH]; simpl; [discriminate|].
  destruct (String.eqb l k); [intros H; inversion H; subst; eexists; split; reflexivity|].
  exact IH.
Qed.

Lemma degree_of_assoc v l mf x :
  assoc l (terms v) = Some mf -> degree v l x = interp_membership (universe v) mf x.
Proof. intros H. unfold degree, term_mf. rewrite H. reflexivity. Qed.

(** All degrees stored in the memberships of [inputs_of] lie in [[0, 1]]. *)
Lemma memberships_range soil temp m :
  memberships (inputs_of soil temp) = Some m ->
  forall v ds l d, assoc v m = Some ds -> assoc l ds = Some d -> 0 <= d <= 1.
Proof.
  rewrite memberships_inputs_of. intros H. inversion H; subst. clear H.
  intros v ds l d Hv Hl. unfold mems_of in Hv. simpl in Hv.
  destruct (String.eqb v "Soil Moisture"); [|destruct (String.eqb v "Temperature"); [|discriminate]];
    inversion Hv; subst; apply assoc_fuzz in Hl; destruct Hl as [mf [Hmf ->]];
    rewrite <- (degree_of_assoc _ l mf _ Hmf); apply degree_range.
  - apply soil_moisture_triangular.
  - apply temperature_triangular.
Qed.

Lemma membership_value_range m t f :
  (forall v ds l d, assoc v m = Some ds -> assoc l ds = Some d -> 0 <= d <= 1) ->
  membership_value m t = Some f -> 0 <= f <= 1.
Proof.
  intros Hm. revert f. induction t as [v l|t1 IH1 t2 IH2|t1 IH1 t2 IH2|t1 IH1]; intros f; simpl.
  - destruct (assoc v m) as [ds|] eqn:E; [|discriminate]. intros H. exact (Hm _ _ _ _ E H).
  - destruct (membership_value m t1) as [a|]; [|discriminate].
    destruct (membership_value m t2) as [b|]; [|discriminate].
    intros H. inversion H; subst. specialize (IH1 a eq_refl). specialize (IH2 b eq_refl).
    destruct (fmin_spec a b) as [[_ E]|[_ E]]; rewrite E; assumption.
  - destruct (membership_value m t1) as [a|]; [|discriminate].
    destruct (membership_value m t2) as [b|]; [|discriminate].
    intros H. inversion H; subst. specialize (IH1 a eq_refl). specialize (IH2 b eq_refl).
    destruct (fmax_spec a b) as [[_ E]|[_ E]]; rewrite E; assumption.
  - destruct (membership_value m t1) as [a|]; [|discriminate].
    intros H. inversion H; subst. specialize (IH1 a eq_refl). lra.
Qed.

(** The firing strengths of the five rules on the memberships of a test case. *)
Lemma firings_mems_of soil temp :
  let s := input_value soil_moisture soil in
  let t := input_value temperature temp in
  firing (mems_of soil temp) rule1 = Some (fmin (degree soil_moisture "dry" s) (degree temperature "hot" t)) /\
  firing (mems_of soil temp) rule2 = Some (fmin (degree soil_moisture "dry" s) (degree temperature "warm" t)) /\
  firing (mems_of soil temp) rule3 = Some (fmin (degree soil_moisture "moist" s) (degree temperature "warm" t)) /\
  firing (mems_of soil temp) rule4 = Some (fmin (degree soil_moisture "moist" s) (degree temperature "cold" t)) /\
  firing (mems_of soil temp) rule5 = Some (degree soil_moisture "wet" s).
Proof.
  intros s t. unfold s, t. clear s t.
  split; [|split; [|split; [|split]]]; unfold mems_of, degree, term_mf; fz; reflexivity.
Qed.

(** C3: for every pair of sensor values, each rule of the rule base fires
    with the minimum ([np.fmin], Zadeh AND) of the degrees of its two
    antecedent terms at the stored input values, the single-antecedent rule
    [wet -> low] with the [wet] degree itself, and every firing strength
    lies in [[0, 1]]. *)
Theorem C3_firing_strength (soil temp : Q) :
  let s := input_value soil_moisture soil in
  let t := input_value temperature temp in
  exists m, memberships (inputs_of soil temp) = Some m /\
    firing m rule1 = Some (fmin (degree soil_moisture "dry" s) (degree temperature "hot" t)) /\
    firing m rule2 = Some (fmin (degree soil_moisture "dry" s) (degree temperature "warm" t)) /\
    firing m rule3 = Some (fmin (degree soil_moisture "moist" s) (degree temperature "warm" t)) /\
    firing m rule4 = Some (fmin (degree soil_moisture "moist" s) (degree temperature "cold" t)) /\
    firing m rule5 = Some (degree soil_moisture "wet" s) /\
    Forall (fun r => exists f, firing m r = Some f /\ 0 <= f <= 1) rule_base.
Proof.
  intros s t. eexists. split; [apply memberships_inputs_of|].
  assert (Hr := memberships_range soil temp _ (memberships_inputs_of soil temp)).
  unfold s, t in *. clear s t.
  destruct (firings_mems_of soil temp) as [H1 [H2 [H3 [H4 H5]]]].
  unfold mems_of in H1, H2, H3, H4, H5.
  split; [exact H1|split; [exact H2|split; [exact H3|split; [exact H4|split; [exact H5|]]]]].
  apply Forall_forall. intros r Hin.
  destruct Hin as [<-|[<-|[<-|[<-|[<-|[]]]]]].
  - exact (ex_intro _ _ (conj H1 (membership_value_range _ _ _ Hr H1))).
  - exact (ex_intro _ _ (conj H2 (membership_value_range _ _ _ Hr H2))).
  - exact (ex_intro _ _ (conj H3 (membership_value_range _ _ _ Hr H3))).
  - exact (ex_intro _ _ (conj H4 (membership_value_range _ _ _ Hr H4))).
  - exact (ex_intro _ _ (conj H5 (membership_value_range _ _ _ Hr H5))).
Qed.

(** ** Accumulation is independent of the rule order *)

Lemma fmax_left_comm a b c : fmax a (fmax b c) = fmax b (fmax a c).
Proof.
  rewrite !(fmax_Qred _ (fmax _ _)). apply Qred_complete.
  rewrite !fmax_Qred, !Qred_correct.
  rewrite !Q.max_assoc, (Q.max_comm a b). reflexivity.
Qed.

Lemma accumulate_comm cs t1 v1 t2 v2 :
  accumulate (accumulate cs t1 v1) t2 v2 = accumulate (accumulate cs t2 v2) t1 v1.
Proof.
  unfold accumulate. rewrite !map_map. apply map_ext. intros [l o]. simpl.
  destruct (String.eqb l t1) eqn:E1, (String.eqb l t2) eqn:E2; simpl; rewrite ?E1, ?E2;
    try reflexivity.
  unfold accum_value. destruct o as [w|]; [rewrite fmax_left_comm|rewrite fmax_comm]; reflexivity.
Qed.

Lemma compute_rule_comm m s r1 r2 :
  compute_rule m (compute_rule m s r1) r2 = compute_rule m (compute_rule m s r2) r1.
Proof.
  unfold compute_rule. destruct s as [cs|];
    destruct (membership_value m (antecedent r1)), (membership_value m (antecedent r2));
    try reflexivity.
  rewrite accumulate_comm. reflexivity.
Qed.

Lemma fold_left_perm {A B} (f : A -> B -> A) :
  (forall s x y, f (f s x) y = f (f s y) x) ->
  forall l1 l2, Permutation l1 l2 -> forall s, fold_left f l1 s = fold_left f l2 s.
Proof.
  intros Hc l1 l2 HP. induction HP as [|x l1 l2 HP IH|x y l|l1 l2 l3 H12 IH12 H23 IH23];
    intros s; simpl.
  - reflexivity.
  - apply IH.
  - rewrite Hc. reflexivity.
  - rewrite IH12. apply IH23.
Qed.

Lemma compute_rules_perm m rs1 rs2 cuts :
  Permutation rs1 rs2 -> compute_rules m rs1 cuts = compute_rules m rs2 cuts.
Proof.
  intros HP. unfold compute_rules. apply fold_left_perm; [apply compute_rule_comm|exact HP].
Qed.

(** C9: the order of the rules does not matter: for every permutation of
    the five rules and every input assignment, inference gives the same
    result. *)
Theorem C9_rule_order_irrelevant (rs : list Rule) (inp : Inputs) :
  Permutation rs rule_base -> infer rs inp = infer rule_base inp.
Proof.
  intros HP. unfold infer. destruct (fuzz_all antecedents inp) as [m|]; [|reflexivity].
  rewrite (compute_rules_perm m rs rule_base _ HP). reflexivity.
Qed.

(** A witness: the rules in reverse order, on the scenario (10, 40). *)
Lemma C9_rule_order_irrelevant_witness :
  infer [rule5; rule4; rule3; rule2; rule1] (inputs_of 10 40) = run 10 40.
Proof.
  apply C9_rule_order_irrelevant.
  change [rule5; rule4; rule3; rule2; rule1] with (rev rule_base).
  apply Permutation_sym, Permutation_rev.
Defined.

(** ** The rule base in closed form *)

Lemma fresh_cuts_water : fresh_cuts water_sprinkle = [("low", None); ("medium", None); ("high", None)].
Proof. reflexivity. Qed.

Lemma compute_rule_some m cs r f :
  firing m r = Some f -> compute_rule m (Some cs) r = Some (accumulate cs (consequent r) (f * rule_weight)).
Proof. unfold compute_rule, firing. intros ->. reflexivity. Qed.

(** Running the five rules from stored values [ol], [om], [oh] of the terms
    [low], [medium], [high]. *)
Lemma compute_rules_rule_base m f1 f2 f3 f4 f5 ol om oh :
  firing m rule1 = Some f1 -> firing m rule2 = Some f2 -> firing m rule3 = Some f3 ->
  firing m rule4 = Some f4 -> firing m rule5 = Some f5 ->
  compute_rules m rule_base [("low", ol); ("medium", om); ("high", oh)] =
  Some [("low", Some (accum_value (f5 * rule_weight) (Some (accum_value (f4 * rule_weight) ol))));
        ("medium", Some (accum_value (f3 * rule_weight) (Some (accum_value (f2 * rule_weight) om))));
        ("high", Some (accum_value (f1 * rule_weight) oh))].
Proof.
  intros H1 H2 H3 H4 H5. unfold compute_rules, rule_base. cbn [fold_left].
  rewrite (compute_rule_some _ _ _ _ H1), (compute_rule_some _ _ _ _ H2),
    (compute_rule_some _ _ _ _ H3), (compute_rule_some _ _ _ _ H4),
    (compute_rule_some _ _ _ _ H5).
  reflexivity.
Qed.

(** ** [fmax]/[fmin] as lattice operations *)

#[global] Instance fmax_proper : Proper (Qeq ==> Qeq ==> Qeq) fmax.
Proof. intros x x' Hx y y' Hy. rewrite (fmax_compat _ _ _ _ Hx Hy). reflexivity. Qed.

#[global] Instance fmin_proper : Proper (Qeq ==> Qeq ==> Qeq) fmin.
Proof. intros x x' Hx y y' Hy. rewrite (fmin_compat _ _ _ _ Hx Hy). reflexivity. Qed.

Lemma fmax_Qeq x y : fmax x y == Qmax x y.
Proof. rewrite fmax_Qred. apply Qred_correct. Qed.

Lemma fmin_Qeq x y : fmin x y == Qmin x y.
Proof. rewrite fmin_Qred. apply Qred_correct. Qed.

Lemma fmax_lub a b z : a <= z -> b <= z -> fmax a b <= z.
Proof. intros Ha Hb. destruct (fmax_spec a b) as [[_ E]|[_ E]]; rewrite E; assumption. Qed.

Lemma fmax_ub_l a b : a <= fmax a b.
Proof. destruct (fmax_spec a b) as [[H E]|[H E]]; rewrite E; lra. Qed.

Lemma fmax_ub_r a b : b <= fmax a b.
Proof. destruct (fmax_spec a b) as [[H E]|[H E]]; rewrite E; lra. Qed.

Lemma fmin_fmax_distr a b d : fmin (fmax a b) d == fmax (fmin a d) (fmin b d).
Proof.
  rewrite !fmax_Qeq, !fmin_Qeq.
  rewrite Q.min_comm, Q.min_max_distr, (Q.min_comm d a), (Q.min_comm d b). reflexivity.
Qed.

Lemma fmax_eq_of_Qeq u v u' v' : fmax u v == fmax u' v' -> fmax u v = fmax u' v'.
Proof.
  rewrite !fmax_Qred. intros H. apply Qred_complete.
  rewrite <- (Qred_correct (Qmax u v)), <- (Qred_correct (Qmax u' v')). exact H.
Qed.

Ltac max_leaf :=
  first [ apply Qle_refl
        | eapply Qle_trans; [|apply fmax_ub_l]; max_leaf
        | eapply Qle_trans; [|apply fmax_ub_r]; max_leaf ].

Ltac max_le := repeat apply fmax_lub; max_leaf.

(** The maximum of a running [fmax] fold dominates its start and every
    element. *)
Lemma fold_fmax_ge {A} (g : A -> Q) (rs : list A) (acc : Q) :
  acc <= fold_left (fun a r => fmax a (g r)) rs acc /\
  forall r, In r rs -> g r <= fold_left (fun a r => fmax a (g r)) rs acc.
Proof.
  revert acc. induction rs as [|r0 rs IH]; intros acc; simpl.
  - split; [apply Qle_refl|intros _ []].
  - destruct (IH (fmax acc (g r0))) as [H1 H2]. split.
    + eapply Qle_trans; [apply fmax_ub_l|exact H1].
    + intros r [<-|Hin]; [|exact (H2 r Hin)].
      eapply Qle_trans; [apply fmax_ub_r|exact H1].
Qed.

(** ** Aggregation of the rule base *)

Lemma output_at_water L M H x :
  output_at water_sprinkle [("low", Some L); ("medium", Some M); ("high", Some H)] x =
  fmax (fmax (fmax 0 (fmin L (degree water_sprinkle "low" x)))
             (fmin M (degree water_sprinkle "medium" x)))
       (fmin H (degree water_sprinkle "high" x)).
Proof.
  unfold output_at, degree, term_mf.
  cbn [fold_left assoc String.eqb Ascii.eqb Bool.eqb fst snd terms universe water_sprinkle].
  reflexivity.
Qed.

Lemma rulewise_rule_base m f1 f2 f3 f4 f5 x :
  firing m rule1 = Some f1 -> firing m rule2 = Some f2 -> firing m rule3 = Some f3 ->
  firing m rule4 = Some f4 -> firing m rule5 = Some f5 ->
  rulewise_aggregate m rule_base x =
  fmax (fmax (fmax (fmax (fmax 0
     (fmin (f1 * rule_weight) (degree water_sprinkle "high" x)))
     (fmin (f2 * rule_weight) (degree water_sprinkle "medium" x)))
     (fmin (f3 * rule_weight) (degree water_sprinkle "medium" x)))
     (fmin (f4 * rule_weight) (degree water_sprinkle "low" x)))
     (fmin (f5 * rule_weight) (degree water_sprinkle "low" x)).
Proof.
  intros H1 H2 H3 H4 H5. unfold rulewise_aggregate, rule_base. cbn [fold_left].
  unfold clipped. rewrite H1, H2, H3, H4, H5. reflexivity.
Qed.

Lemma aggregate_lattice a1 a2 a3 a4 a5 dL dM dH :
  fmax (fmax (fmax 0 (fmin (fmax a5 a4) dL)) (fmin (fmax a3 a2) dM)) (fmin a1 dH) =
  fmax (fmax (fmax (fmax (fmax 0 (fmin a1 dH)) (fmin a2 dM)) (fmin a3 dM)) (fmin a4 dL)) (fmin a5 dL).
Proof.
  apply fmax_eq_of_Qeq. rewrite !fmin_fmax_distr.
  apply Qle_antisym; max_le.
Qed.

Lemma cuts_of_inputs_of soil temp :
  let s := input_value soil_moisture soil in
  let t := input_value temperature temp in
  let f1 := fmin (degree soil_moisture "dry" s) (degree temperature "hot" t) in
  let f2 := fmin (degree soil_moisture "dry" s) (degree temperature "warm" t) in
  let f3 := fmin (degree soil_moisture "moist" s) (degree temperature "warm" t) in
  let f4 := fmin (degree soil_moisture "moist" s) (degree temperature "cold" t) in
  let f5 := degree soil_moisture "wet" s in
  cuts_of (inputs_of soil temp) =
  Some [("low", Some (fmax (f5 * rule_weight) (f4 * rule_weight)));
        ("medium", Some (fmax (f3 * rule_weight) (f2 * rule_weight)));
        ("high", Some (f1 * rule_weight))].
Proof.
  intros s t f1 f2 f3 f4 f5.
  destruct (firings_mems_of soil temp) as [H1 [H2 [H3 [H4 H5]]]].
  unfold cuts_of. rewrite memberships_inputs_of, fresh_cuts_water.
  rewrite (compute_rules_rule_base _ _ _ _ _ _ _ _ _ H1 H2 H3 H4 H5). reflexivity.
Qed.

(** C4: for every pair of sensor values the aggregated output curve
    ([output_at], at every point [x]; [output_mf] samples it on the refined
    universe) equals the maximum, over the rules, of the rule's firing
    strength clipped ([fmin]) at its consequent's degree; every clipped
    curve lies below it, and it lies below the pointwise maximum of the
    clipped curves. *)
Theorem C4_mamdani_aggregation (soil temp : Q) :
  exists cuts, cuts_of (inputs_of soil temp) = Some cuts /\
    output_mf water_sprinkle cuts =
      map (rulewise_aggregate (mems_of soil temp) rule_base) (new_universe water_sprinkle cuts) /\
    forall x,
      output_at water_sprinkle cuts x = rulewise_aggregate (mems_of soil temp) rule_base x /\
      (forall r, In r rule_base -> clipped (mems_of soil temp) r x <= output_at water_sprinkle cuts x) /\
      output_at water_sprinkle cuts x <= rulewise_aggregate (mems_of soil temp) rule_base x.
Proof.
  assert (Hpt : forall cuts, cuts_of (inputs_of soil temp) = Some cuts -> forall x,
             output_at water_sprinkle cuts x = rulewise_aggregate (mems_of soil temp) rule_base x).
  { intros cuts Hc x. rewrite (cuts_of_inputs_of soil temp) in Hc. injection Hc as <-.
    destruct (firings_mems_of soil temp) as [H1 [H2 [H3 [H4 H5]]]].
    rewrite (rulewise_rule_base _ _ _ _ _ _ x H1 H2 H3 H4 H5), output_at_water.
    apply aggregate_lattice. }
  eexists. split; [apply cuts_of_inputs_of|]. split.
  - unfold output_mf. apply map_ext. apply Hpt. apply cuts_of_inputs_of.
  - intros x. rewrite (Hpt _ (cuts_of_inputs_of soil temp) x). split; [reflexivity|split].
    + intros r Hin. apply (proj2 (fold_fmax_ge (fun r => clipped (mems_of soil temp) r x) rule_base 0)).
      exact Hin.
    + apply Qle_refl.
Qed.

(** ** No rule fires *)

Lemma fold_Qplus_zero (l : list Q) (acc : Q) :
  (forall y, In y l -> y == 0) -> fold_left Qplus l acc == acc.
Proof.
  revert acc. induction l as [|a l IH]; intros acc Hl; simpl; [reflexivity|].
  rewrite IH by (intros y Hy; apply Hl; right; exact Hy).
  rewrite (Hl a (or_introl eq_refl)). ring.
Qed.

Lemma fmin_zero_l d : 0 <= d -> fmin 0 d == 0.
Proof. intros Hd. destruct (fmin_spec 0 d) as [[_ E]|[H E]]; rewrite E; [reflexivity|lra]. Qed.

Lemma fmax_zero : fmax 0 0 == 0.
Proof. reflexivity. Qed.

Lemma output_at_water_zero L M H x :
  L == 0 -> M == 0 -> H == 0 ->
  output_at water_sprinkle [("low", Some L); ("medium", Some M); ("high", Some H)] x == 0.
Proof.
  intros HL HM HH. rewrite output_at_water, HL, HM, HH.
  rewrite !fmin_zero_l by (apply degree_range, water_sprinkle_triangular).
  rewrite !fmax_zero. reflexivity.
Qed.

Lemma defuzz_water_zero L M H :
  L == 0 -> M == 0 -> H == 0 ->
  defuzz water_sprinkle [("low", Some L); ("medium", Some M); ("high", Some H)] = inl ZeroArea.
Proof.
  intros HL HM HH. unfold defuzz.
  assert (Ht : cut_terms water_sprinkle [("low", Some L); ("medium", Some M); ("high", Some H)]
               = ["low"; "medium"; "high"]) by reflexivity.
  rewrite Ht. cbv beta iota zeta.
  assert (Hz : Qeq_bool (Qsum (map (output_at water_sprinkle
                 [("low", Some L); ("medium", Some M); ("high", Some H)])
                 (new_universe water_sprinkle [("low", Some L); ("medium", Some M); ("high", Some H)]))) 0
               = true).
  { apply Qeq_bool_iff. unfold Qsum. apply fold_Qplus_zero. intros y Hy.
    destruct (proj1 (in_map_iff _ _ _) Hy) as [x [<- _]]. apply output_at_water_zero; assumption. }
  rewrite Hz. reflexivity.
Qed.

(** C6: for every input assignment whose memberships make every rule fire
    with strength 0, inference raises the [ZeroArea] error (the ValueError
    of [defuzz]: the aggregated curve has no area) and returns no number. *)
Theorem C6_no_firing_is_error (inp : Inputs) (m : Memberships) :
  memberships inp = Some m ->
  (forall r, In r rule_base -> exists f, firing m r = Some f /\ f == 0) ->
  infer rule_base inp = inl ZeroArea /\ forall v, infer rule_base inp <> inr v.
Proof.
  intros Hm Hz.
  destruct (Hz rule1 ltac:(simpl; tauto)) as [f1 [H1 Z1]].
  destruct (Hz rule2 ltac:(simpl; tauto)) as [f2 [H2 Z2]].
  destruct (Hz rule3 ltac:(simpl; tauto)) as [f3 [H3 Z3]].
  destruct (Hz rule4 ltac:(simpl; tauto)) as [f4 [H4 Z4]].
  destruct (Hz rule5 ltac:(simpl; tauto)) as [f5 [H5 Z5]].
  assert (E : infer rule_base inp = inl ZeroArea).
  { unfold infer. unfold memberships in Hm. rewrite Hm, fresh_cuts_water.
    rewrite (compute_rules_rule_base _ _ _ _ _ _ _ _ _ H1 H2 H3 H4 H5).
    unfold accum_value. rewrite !rule_weight_r.
    apply defuzz_water_zero.
    - rewrite Z4, Z5. apply fmax_zero.
    - rewrite Z2, Z3. apply fmax_zero.
    - exact Z1. }
  split; [exact E|]. intros v. rewrite E. discriminate.
Qed.

Lemma C6_no_firing_is_error_witness :
  infer rule_base (inputs_of 0 0) = inl ZeroArea /\ forall v, infer rule_base (inputs_of 0 0) <> inr v.
Proof.
  apply (C6_no_firing_is_error (inputs_of 0 0) (mems_of 0 0)).
  - reflexivity.
  - intros r Hin. exists 0.
    destruct Hin as [<-|[<-|[<-|[<-|[<-|[]]]]]]; split; try reflexivity; vm_compute; reflexivity.
Defined.

(** C10: at soil moisture 0 and temperature 0, both inside their universes,
    [dry] and [cold] have degree 1 and every other antecedent term degree 0;
    no rule combines [dry] with [cold], so all five rules fire with
    strength 0, the aggregated output curve is zero at every sample point,
    and inference raises [ZeroArea] instead of returning a crisp value. *)
Theorem C10_uncovered_input :
  let s := input_value soil_moisture 0 in
  let t := input_value temperature 0 in
  In 0 soil_universe /\ In 0 temp_universe /\
  degree soil_moisture "dry" s == 1 /\ degree soil_moisture "moist" s == 0 /\
  degree soil_moisture "wet" s == 0 /\
  degree temperature "cold" t == 1 /\ degree temperature "warm" t == 0 /\
  degree temperature "hot" t == 0 /\
  (forall r, In r rule_base -> exists f, firing (mems_of 0 0) r = Some f /\ f == 0) /\
  (exists cuts, cuts_of (inputs_of 0 0) = Some cuts /\
     Forall (fun y => y == 0) (output_mf water_sprinkle cuts)) /\
  run 0 0 = inl ZeroArea.
Proof.
  intros s t. unfold s, t. clear s t.
  split; [vm_compute; tauto|split; [vm_compute; tauto|]].
  split; [vm_compute; reflexivity|]. split; [vm_compute; reflexivity|].
  split; [vm_compute; reflexivity|]. split; [vm_compute; reflexivity|].
  split; [vm_compute; reflexivity|]. split; [vm_compute; reflexivity|].
  split.
  - intros r Hin. exists 0.
    destruct Hin as [<-|[<-|[<-|[<-|[<-|[]]]]]]; split; try reflexivity; vm_compute; reflexivity.
  - split; [|vm_compute; reflexivity].
    eexists. split; [apply cuts_of_inputs_of|].
    apply Forall_forall. intros y Hy. unfold output_mf in Hy.
    destruct (proj1 (in_map_iff _ _ _) Hy) as [x [<- _]].
    apply output_at_water_zero; vm_compute; reflexivity.
Qed.

Lemma inr_inj {A B} (x y : B) : @inr A B x = inr y -> x = y.
Proof. intros H. injection H. tauto. Qed.

(** ** The refined output universe *)

Lemma insert_uniq_in z y l : In z (insert_uniq y l) -> z = y \/ In z l.
Proof.
  induction l as [|x t IH]; cbn [insert_uniq].
  - intros [<-|[]]. left. reflexivity.
  - destruct (Qeq_bool y x); [intros H; right; exact H|]. destruct (Qle_bool y x).
    + intros [<-|H]; [left; reflexivity|right; exact H].
    + intros [<-|H]; [right; left; reflexivity|].
      destruct (IH H) as [->|H']; [left; reflexivity|right; right; exact H'].
Qed.

Lemma insert_uniq_sorted y l : StronglySorted Qlt l -> StronglySorted Qlt (insert_uniq y l).
Proof.
  induction l as [|x t IH]; intros Hs; simpl.
  - repeat constructor.
  - inversion Hs as [|? ? Ht Hx]; subst.
    destruct (Qeq_bool y x) eqn:E1; [exact Hs|].
    apply Qeq_bool_neq in E1.
    destruct (Qle_bool y x) eqn:E2.
    + apply Qle_bool_iff in E2.
      assert (Hyx : y < x) by (destruct (Qle_lt_or_eq _ _ E2); [assumption|contradiction]).
      constructor; [exact Hs|]. constructor; [exact Hyx|].
      apply Forall_forall. intros z Hz. rewrite Forall_forall in Hx.
      apply (Qlt_trans _ x); [exact Hyx|exact (Hx z Hz)].
    + apply Qle_bool_false in E2. constructor; [exact (IH Ht)|].
      apply Forall_forall. intros z Hz. apply insert_uniq_in in Hz.
      destruct Hz as [->|Hz]; [exact E2|]. rewrite Forall_forall in Hx. exact (Hx z Hz).
Qed.

Lemma union1d_sorted a b : StronglySorted Qlt (union1d a b).
Proof.
  unfold union1d. induction (a ++ b)%list as [|y l IH]; simpl; [constructor|].
  apply insert_uniq_sorted, IH.
Qed.

Lemma union1d_in z a b : In z (union1d a b) -> In z (a ++ b)%list.
Proof.
  unfold union1d. induction (a ++ b)%list as [|y l IH]; simpl; [tauto|].
  intros H. apply insert_uniq_in in H. destruct H as [->|H]; [tauto|right; exact (IH H)].
Qed.

Lemma arange_range lo n q :
  In q (arange lo n) -> inject_Z lo <= q /\ q <= inject_Z (lo + Z.of_nat n - 1).
Proof.
  revert lo. induction n as [|n IH]; intros lo; simpl; [tauto|].
  intros [<-|H].
  - split; [apply Qle_refl|rewrite <- Zle_Qle; lia].
  - destruct (IH _ H) as [H1 H2]. split.
    + eapply Qle_trans; [|exact H1]. rewrite <- Zle_Qle. lia.
    + eapply Qle_trans; [exact H2|]. rewrite <- Zle_Qle. lia.
Qed.

Lemma water_universe_range : Forall (fun q => 0 <= q <= 100) water_universe.
Proof.
  apply Forall_forall. intros q Hq. apply arange_range in Hq.
  change (inject_Z 0) with 0 in Hq. change (inject_Z (0 + Z.of_nat 101 - 1)) with 100 in Hq.
  exact Hq.
Qed.

Lemma crossing_point lo hi x1 x2 y1 y2 y :
  lo <= x1 <= hi -> lo <= x2 <= hi -> (y1 < y /\ y < y2) \/ (y < y1 /\ y2 < y) ->
  lo <= x1 + (y - y1) * (x2 - x1) / (y2 - y1) <= hi.
Proof.
  intros H1 H2 Hy.
  assert (Hd : ~ y2 - y1 == 0) by (intros E; destruct Hy; lra).
  assert (Ht : exists t, 0 <= t <= 1 /\ (y - y1) * (x2 - x1) / (y2 - y1) == t * (x2 - x1)).
  { destruct Hy as [[Ha Hb]|[Ha Hb]].
    - exists ((y - y1) / (y2 - y1)). split; [split|field; exact Hd].
      + apply Qle_shift_div_l; lra.
      + apply Qle_shift_div_r; lra.
    - exists ((y1 - y) / (y1 - y2)). split; [split|field; split; intros E; lra].
      + apply Qle_shift_div_l; lra.
      + apply Qle_shift_div_r; lra. }
  destruct Ht as [t [[Ht0 Ht1] E]]. rewrite E. split; nra.
Qed.

Lemma crossings_range lo hi y pts :
  Forall (fun p => lo <= fst p <= hi) pts -> Forall (fun z => lo <= z <= hi) (crossings y pts).
Proof.
  induction pts as [|[x1 y1] rest IH]; intros Hf; [constructor|].
  destruct rest as [|[x2 y2] rest']; [constructor|].
  inversion Hf as [|? ? Hp1 Hf']; subst. inversion Hf' as [|? ? Hp2 _]; subst.
  simpl in Hp1, Hp2. cbn [crossings].
  destruct ((Qltb y1 y && Qltb y y2) || (Qltb y y1 && Qltb y2 y)) eqn:E; [|exact (IH Hf')].
  constructor; [|exact (IH Hf')].
  apply crossing_point; [exact Hp1|exact Hp2|].
  apply orb_true_iff in E. destruct E as [E|E]; apply andb_true_iff in E; destruct E as [Ea Eb];
    apply Qltb_iff in Ea; apply Qltb_iff in Eb; [left|right]; split; assumption.
Qed.

Lemma Forall_combine_l {B} (P : Q -> Prop) (x : list Q) (mf : list B) :
  Forall P x -> Forall (fun p => P (fst p)) (combine x mf).
Proof.
  intros H. apply Forall_forall. intros [a b] Hin. apply in_combine_l in Hin.
  rewrite Forall_forall in H. exact (H a Hin).
Qed.

Lemma new_universe_range v cuts lo hi :
  Forall (fun q => lo <= q <= hi) (universe v) ->
  Forall (fun q => lo <= q <= hi) (new_universe v cuts).
Proof.
  intros Hu. apply Forall_forall. intros z Hz. apply union1d_in, in_app_or in Hz.
  rewrite Forall_forall in Hu. destruct Hz as [Hz|Hz]; [exact (Hu z Hz)|].
  unfold new_values in Hz. apply in_flat_map in Hz. destruct Hz as [p [_ Hz]].
  destruct (assoc (fst p) cuts) as [[cut|]|]; [|destruct Hz|destruct Hz].
  unfold interp_universe_fast in Hz.
  assert (Hc := crossings_range lo hi cut _ (Forall_combine_l _ _ (snd p) (proj2 (Forall_forall _ _) Hu))).
  rewrite Forall_forall in Hc. exact (Hc z Hz).
Qed.

Lemma fold_left_ge {A} (f : Q -> A -> Q) (l : list A) (acc : Q) :
  (forall a p, a <= f a p) -> acc <= fold_left f l acc.
Proof.
  intros Hf. revert acc. induction l as [|p l IH]; intros acc; simpl; [apply Qle_refl|].
  eapply Qle_trans; [apply Hf|apply IH].
Qed.

Lemma output_at_nonneg v cuts x : 0 <= output_at v cuts x.
Proof.
  unfold output_at. apply fold_left_ge. intros a p. cbv beta.
  destruct (assoc (fst p) cuts) as [[c|]|]; [apply fmax_ub_l|apply Qle_refl|apply Qle_refl].
Qed.

(** ** Bounds of [centroid] *)

Lemma seg_mul x1 x2 m a : 0 <= a -> x1 <= m <= x2 -> 0 <= a /\ x1 * a <= m * a <= x2 * a.
Proof. intros Ha Hm. split; [exact Ha|split; nra]. Qed.

Lemma segment_bounds x1 y1 x2 y2 m a :
  x1 <= x2 -> 0 <= y1 -> 0 <= y2 -> segment x1 y1 x2 y2 = Some (m, a) ->
  0 <= a /\ x1 * a <= m * a <= x2 * a.
Proof.
  intros Hx H1 H2. unfold segment.
  destruct ((Qeq_bool y1 y2 && Qeq_bool y2 0) || Qeq_bool x1 x2) eqn:E0; [discriminate|].
  apply orb_false_iff in E0. destruct E0 as [_ Ex]. apply Qeq_bool_neq in Ex.
  assert (Hlt : x1 < x2) by (destruct (Qle_lt_or_eq _ _ Hx); [assumption|contradiction]).
  destruct (Qeq_bool y1 y2) eqn:E12.
  - intros H. injection H as <- <-. apply seg_mul; [nra|lra].
  - apply Qeq_bool_neq in E12.
    destruct (Qeq_bool y1 0 && negb (Qeq_bool y2 0)).
    + intros H. injection H as <- <-. apply seg_mul; [nra|lra].
    + destruct (Qeq_bool y2 0 && negb (Qeq_bool y1 0)).
      * intros H. injection H as <- <-. apply seg_mul; [nra|lra].
      * intros H. injection H as <- <-.
        assert (Hs : 0 < y1 + y2)
          by (destruct (Qlt_le_dec 0 (y1 + y2)) as [Hs|Hs]; [exact Hs|exfalso; apply E12; lra]).
        apply seg_mul; [nra|].
        assert (D0 : 0 <= (2 # 3) * (x2 - x1) * (y2 + (1 # 2) * y1) / (y1 + y2))
          by (apply Qle_shift_div_l; [exact Hs|nra]).
        assert (D1 : (2 # 3) * (x2 - x1) * (y2 + (1 # 2) * y1) / (y1 + y2) <= x2 - x1)
          by (apply Qle_shift_div_r; [exact Hs|nra]).
        lra.
Qed.

Lemma centroid_loop_bounds hi pts :
  0 <= hi ->
  StronglySorted (fun p q => fst p <= fst q) pts ->
  Forall (fun p => (0 <= fst p <= hi) /\ 0 <= snd p) pts ->
  forall sma sa, 0 <= sa -> 0 <= sma <= hi * sa ->
  0 <= snd (centroid_loop pts sma sa) /\
  0 <= fst (centroid_loop pts sma sa) <= hi * snd (centroid_loop pts sma sa).
Proof.
  intros Hhi. induction pts as [|[x1 y1] rest IH]; intros Hs Hf sma sa Hsa Hsma.
  - simpl. auto.
  - destruct rest as [|[x2 y2] rest']; [simpl; auto|].
    inversion Hs as [|? ? Hs' Hhd]; subst. inversion Hf as [|? ? Hp1 Hf']; subst.
    inversion Hf' as [|? ? Hp2 _]; subst. inversion Hhd as [|? ? Hle _]; subst.
    simpl in Hle, Hp1, Hp2. cbn [centroid_loop].
    destruct (segment x1 y1 x2 y2) as [[mo ar]|] eqn:Eseg; [|exact (IH Hs' Hf' sma sa Hsa Hsma)].
    destruct (segment_bounds _ _ _ _ _ _ Hle (proj2 Hp1) (proj2 Hp2) Eseg) as [Ha [Hm1 Hm2]].
    apply IH; [exact Hs'|exact Hf'|lra|].
    assert (0 <= x1 * ar) by nra. assert (x2 * ar <= hi * ar) by nra. split; nra.
Qed.

Lemma eps_pos : 0 < eps.
Proof. reflexivity. Qed.

Lemma div_fmax_eps_bounds hi p q :
  0 <= hi -> 0 <= q -> 0 <= p <= hi * q -> 0 <= p / fmax q eps <= hi.
Proof.
  intros Hhi Hq Hp.
  assert (F1 := fmax_ub_l q eps). assert (F2 := fmax_ub_r q eps). assert (E := eps_pos).
  split.
  - apply Qle_shift_div_l; [lra|]. lra.
  - apply Qle_shift_div_r; [lra|]. nra.
Qed.

Lemma combine_sorted {B} (x : list Q) (mf : list B) :
  StronglySorted Qlt x -> StronglySorted (fun p q => fst p <= fst q) (combine x mf).
Proof.
  revert mf. induction x as [|a x IH]; intros mf Hs; [constructor|].
  destruct mf as [|b mf]; [constructor|]. simpl.
  inversion Hs as [|? ? Hs' Ha]; subst. constructor; [exact (IH mf Hs')|].
  apply Forall_forall. intros [c d] Hin. apply in_combine_l in Hin.
  rewrite Forall_forall in Ha. apply Qlt_le_weak, (Ha c Hin).
Qed.

Lemma Forall_combine (P R : Q -> Prop) (x mf : list Q) :
  Forall P x -> Forall R mf -> Forall (fun p => P (fst p) /\ R (snd p)) (combine x mf).
Proof.
  intros Hx Hm. apply Forall_forall. intros [a b] Hin.
  rewrite Forall_forall in Hx, Hm. split.
  - exact (Hx a (in_combine_l _ _ _ _ Hin)).
  - exact (Hm b (in_combine_r _ _ _ _ Hin)).
Qed.

Lemma centroid_range hi x mf :
  0 <= hi -> StronglySorted Qlt x -> Forall (fun z => 0 <= z <= hi) x ->
  Forall (fun y => 0 <= y) mf -> 0 <= centroid x mf <= hi.
Proof.
  intros Hhi Hs Hx Hm. unfold centroid.
  assert (Hs' := combine_sorted x mf Hs). assert (Hf := Forall_combine _ _ x mf Hx Hm).
  destruct (combine x mf) as [|[x0 m0] [|p rest]]; cbv beta iota.
  - apply div_fmax_eps_bounds; [exact Hhi|apply Qle_refl|]. split; [apply Qle_refl|]. nra.
  - inversion Hf as [|? ? [H0 H1] _]; subst. simpl in H0, H1.
    apply div_fmax_eps_bounds; [exact Hhi|exact H1|]. split; nra.
  - destruct (centroid_loop_bounds hi _ Hhi Hs' Hf 0 0 (Qle_refl 0) ltac:(split; [apply Qle_refl|nra]))
      as [H1 H2].
    destruct (centroid_loop ((x0, m0) :: p :: rest) 0 0) as [sma sa]. simpl in H1, H2.
    apply div_fmax_eps_bounds; assumption.
Qed.

(** A successful defuzzification of the water variable is the centroid of
    the aggregated curve on the refined universe, and lies in [[0, 100]]. *)
Lemma defuzz_water_range cuts v :
  defuzz water_sprinkle cuts = inr v ->
  ~ Qsum (output_mf water_sprinkle cuts) == 0 /\
  v = centroid (new_universe water_sprinkle cuts) (output_mf water_sprinkle cuts) /\
  0 <= v <= 100.
Proof.
  unfold defuzz. destruct (cut_terms water_sprinkle cuts); [discriminate|]. cbv zeta.
  destruct (Qeq_bool (Qsum (map (output_at water_sprinkle cuts) (new_universe water_sprinkle cuts))) 0)
    eqn:E; [discriminate|].
  intros H. apply inr_inj in H. subst v. split; [exact (Qeq_bool_neq _ _ E)|]. split; [reflexivity|].
  apply centroid_range.
  - lra.
  - apply union1d_sorted.
  - apply new_universe_range. exact water_universe_range.
  - apply Forall_forall. intros y Hy. unfold output_mf in Hy.
    destruct (proj1 (in_map_iff _ _ _) Hy) as [x [<- _]]. apply output_at_nonneg.
Qed.

(** C5 (amended): for every input assignment on which inference succeeds
    (the aggregated curve is not identically zero), the crisp output is
    skfuzzy's [centroid] of the aggregated curve: the centroid of the
    piecewise-linear area under it, sampled on the output universe refined
    with the cut crossings ([new_universe]), not the discrete centroid over
    [0, 1, ..., 100]; and it lies within the universe bounds [[0, 100]]. *)
Theorem C5_centroid_in_bounds (inp : Inputs) (v : Q) :
  infer rule_base inp = inr v ->
  exists cuts, cuts_of inp = Some cuts /\
    ~ Qsum (output_mf water_sprinkle cuts) == 0 /\
    v = centroid (new_universe water_sprinkle cuts) (output_mf water_sprinkle cuts) /\
    0 <= v <= 100.
Proof.
  unfold infer, cuts_of, memberships. destruct (fuzz_all antecedents inp) as [m|]; [|discriminate].
  destruct (compute_rules m rule_base (fresh_cuts water_sprinkle)) as [cuts|]; [|discriminate].
  intros H. exists cuts. split; [reflexivity|]. exact (defuzz_water_range cuts v H).
Qed.

Lemma C5_centroid_in_bounds_witness :
  exists cuts, cuts_of (inputs_of 90 15) = Some cuts /\
    ~ Qsum (output_mf water_sprinkle cuts) == 0 /\
    crisp_of (run 90 15) = centroid (new_universe water_sprinkle cuts) (output_mf water_sprinkle cuts) /\
    0 <= crisp_of (run 90 15) <= 100.
Proof.
  apply (C5_centroid_in_bounds (inputs_of 90 15) (crisp_of (run 90 15))).
  vm_compute. reflexivity.
Defined.

(** C5 (as stated) fails: at soil moisture 90 and temperature 15 inference
    succeeds with 155/9 (about 17.22), while the discrete centroid
    [sum(x_i * mf_i) / sum(mf_i)] of the aggregated curve over the sample
    points [0, 1, ..., 100] is 1033/61 (about 16.93). *)
Lemma C5_discrete_centroid_counterexample :
  ~ (forall inp v, infer rule_base inp = inr v ->
       exists d, spec_discrete_output inp = Some d /\ v == d).
Proof.
  intros H.
  destruct (H (inputs_of 90 15) (crisp_of (run 90 15))) as [d [Hd Hv]]; [vm_compute; reflexivity|].
  vm_compute in Hd. injection Hd as <-. vm_compute in Hv. discriminate.
Qed.

(** ** [np.interp] on the integer grid reproduces a linear piece *)

Lemma arange_S lo n : arange lo (S n) = inject_Z lo :: arange (lo + 1) n.
Proof. reflexivity. Qed.

Lemma interp_pts_cons2 x x1 y1 x2 y2 r :
  interp_pts x ((x1, y1) :: (x2, y2) :: r) =
  if Qle_bool x x1 then y1
  else if Qltb x x2 then y1 + (x - x1) * (y2 - y1) / (x2 - x1)
  else interp_pts x ((x2, y2) :: r).
Proof. reflexivity. Qed.

(** Where the sampled function is [al + be * k] at the integer points [k]
    of [[l, h]], the interpolation of its samples on [arange lo n] is
    [al + be * x] for every [x] of [[l, h]] inside the grid. *)
Lemma interp_arange_linear (f : Q -> Q) (al be : Q) (l h lo : Z) (n : nat) (x : Q) :
  (forall k : Z, (l <= k <= h)%Z -> f (inject_Z k) == al + be * inject_Z k) ->
  inject_Z l <= x <= inject_Z h ->
  inject_Z lo <= x <= inject_Z (lo + Z.of_nat n - 1) ->
  interp_pts x (map (fun q => (q, f q)) (arange lo n)) == al + be * x.
Proof.
  intros Hf. revert lo. induction n as [|n IH]; intros lo [Hl Hh] [Hlo Hhi].
  - exfalso. assert (inject_Z lo <= inject_Z (lo + Z.of_nat 0 - 1)) by (eapply Qle_trans; eassumption).
    rewrite <- Zle_Qle in H. lia.
  - destruct n as [|n].
    + rewrite arange_S. cbn [map arange interp_pts].
      assert (Hx : x == inject_Z lo).
      { apply Qle_antisym; [|exact Hlo]. eapply Qle_trans; [exact Hhi|].
        rewrite <- Zle_Qle. lia. }
      assert (H1 : (l <= lo)%Z) by (rewrite Zle_Qle; rewrite <- Hx; exact Hl).
      assert (H2 : (lo <= h)%Z) by (rewrite Zle_Qle; rewrite <- Hx; exact Hh).
      rewrite (Hf lo (conj H1 H2)), Hx. reflexivity.
    + assert (IH' := IH (lo + 1)%Z). rewrite (arange_S (lo + 1)) in IH'. cbn [map] in IH'.
      rewrite arange_S, (arange_S (lo + 1)). cbn [map]. rewrite interp_pts_cons2.
      destruct (Qle_bool x (inject_Z lo)) eqn:E1.
      * qbool. assert (Hx : x == inject_Z lo) by (apply Qle_antisym; assumption).
        assert (H1 : (l <= lo)%Z) by (rewrite Zle_Qle; rewrite <- Hx; exact Hl).
        assert (H2 : (lo <= h)%Z) by (rewrite Zle_Qle; rewrite <- Hx; exact Hh).
        rewrite (Hf lo (conj H1 H2)), Hx. reflexivity.
      * destruct (Qltb x (inject_Z (lo + 1))) eqn:E2.
        -- qbool.
           assert (H1 : (l <= lo)%Z).
           { assert (inject_Z l < inject_Z (lo + 1)) by (eapply Qle_lt_trans; eassumption).
             rewrite <- Zlt_Qlt in H. lia. }
           assert (H2 : (lo + 1 <= h)%Z).
           { assert (inject_Z lo < inject_Z h) by (eapply Qlt_le_trans; eassumption).
             rewrite <- Zlt_Qlt in H. lia. }
           assert (H3 : (lo <= h)%Z) by lia. assert (H4 : (l <= lo + 1)%Z) by lia.
           rewrite (Hf lo (conj H1 H3)), (Hf (lo + 1)%Z (conj H4 H2)).
           rewrite inject_Z_plus. change (inject_Z 1) with 1. field.
           intros E. lra.
        -- qbool. apply IH'.
           ++ split; assumption.
           ++ split; [exact E2|]. eapply Qle_trans; [exact Hhi|].
              rewrite <- Zle_Qle. lia.
Qed.

(** The degree of a temperature term on a piece where its triangle is the
    line [al + be * x]. *)
Lemma degree_temperature_piece tl a b c al be (l h : Z) x :
  assoc tl (terms temperature) = Some (trimf temp_universe (a, b, c)) ->
  (forall y, inject_Z l <= y <= inject_Z h -> trimf_at a b c y == al + be * y) ->
  (0 <= l)%Z -> (h <= 50)%Z -> inject_Z l <= x <= inject_Z h ->
  degree temperature tl x == al + be * x.
Proof.
  intros Ha Hf Hl Hh Hx. rewrite (degree_of_assoc _ _ _ _ Ha).
  unfold interp_membership, trimf. rewrite combine_map_same.
  apply (interp_arange_linear _ al be l h 0 51).
  - intros k Hk. apply Hf. split; rewrite <- Zle_Qle; lia.
  - exact Hx.
  - destruct Hx as [Hx1 Hx2]. split.
    + eapply Qle_trans; [|exact Hx1]. rewrite <- Zle_Qle. lia.
    + eapply Qle_trans; [exact Hx2|]. rewrite <- Zle_Qle. lia.
Qed.

Ltac tri_piece a b c y :=
  let E := fresh "E" in let R := fresh "R" in let N := fresh "N" in let T := fresh "T" in
  intros y [? ?]; unfold inject_Z in *;
  destruct (trimf_at_cases a b c y ltac:(lra) ltac:(lra))
    as [[E T]|[[R T]|[[R T]|[R [N T]]]]]; rewrite T;
  [ lra
  | first [exfalso; lra | field]
  | first [exfalso; lra | field]
  | destruct R; first [lra | exfalso; apply N; lra] ].

Lemma cold_low_piece x : 0 <= x <= 20 -> degree temperature "cold" x == 1 + (-1 # 20) * x.
Proof.
  apply (degree_temperature_piece "cold" 0 0 20 _ _ 0 20 x); [reflexivity| |lia|lia].
  tri_piece 0 0 20 y.
Qed.

Lemma cold_high_piece x : 20 <= x <= 50 -> degree temperature "cold" x == 0 + 0 * x.
Proof.
  apply (degree_temperature_piece "cold" 0 0 20 _ _ 20 50 x); [reflexivity| |lia|lia].
  tri_piece 0 0 20 y.
Qed.

Lemma warm_rise_piece x : 10 <= x <= 25 -> degree temperature "warm" x == (-2 # 3) + (1 # 15) * x.
Proof.
  apply (degree_temperature_piece "warm" 10 25 40 _ _ 10 25 x); [reflexivity| |lia|lia].
  tri_piece 10 25 40 y.
Qed.

Lemma warm_fall_piece x : 25 <= x <= 40 -> degree temperature "warm" x == (8 # 3) + (-1 # 15) * x.
Proof.
  apply (degree_temperature_piece "warm" 10 25 40 _ _ 25 40 x); [reflexivity| |lia|lia].
  tri_piece 10 25 40 y.
Qed.

Lemma warm_high_piece x : 40 <= x <= 50 -> degree temperature "warm" x == 0 + 0 * x.
Proof.
  apply (degree_temperature_piece "warm" 10 25 40 _ _ 40 50 x); [reflexivity| |lia|lia].
  tri_piece 10 25 40 y.
Qed.

Lemma hot_high_piece x : 30 <= x <= 50 -> degree temperature "hot" x == (-3 # 2) + (1 # 20) * x.
Proof.
  apply (degree_temperature_piece "hot" 30 50 50 _ _ 30 50 x); [reflexivity| |lia|lia].
  tri_piece 30 50 50 y.
Qed.

(** ** Soil moisture 50 *)

Lemma temp_input_value t : 0 <= t <= 50 -> input_value temperature t == t.
Proof.
  intros [H0 H1]. unfold input_value. rewrite Qred_correct. unfold clip_to_bounds.
  change (universe temperature) with (inject_Z 0 :: arange 1 50). cbv beta iota zeta.
  change (list_max (inject_Z 0) (arange 1 50)) with 50.
  change (list_min (inject_Z 0) (arange 1 50)) with 0.
  destruct (Qltb 50 t) eqn:E; [qbool; exfalso; lra|].
  destruct (Qltb t 0) eqn:E'; [qbool; exfalso; lra|reflexivity].
Qed.

Lemma fmin_one_l w : w <= 1 -> fmin 1 w == w.
Proof. intros Hw. destruct (fmin_spec 1 w) as [[H E]|[H E]]; rewrite E; [lra|reflexivity]. Qed.

Lemma fmin_one_r w : w <= 1 -> fmin w 1 == w.
Proof. intros Hw. destruct (fmin_spec w 1) as [[H E]|[H E]]; rewrite E; [reflexivity|lra]. Qed.

Lemma fmax_zero_l c : 0 <= c -> fmax 0 c == c.
Proof. intros Hc. destruct (fmax_spec 0 c) as [[H E]|[H E]]; rewrite E; [lra|reflexivity]. Qed.

Lemma fmax_zero_r c : 0 <= c -> fmax c 0 == c.
Proof. intros Hc. destruct (fmax_spec c 0) as [[H E]|[H E]]; rewrite E; [reflexivity|lra]. Qed.

Lemma fmin_zero_r d : 0 <= d -> fmin d 0 == 0.
Proof. intros Hd. destruct (fmin_spec d 0) as [[H E]|[H E]]; rewrite E; [lra|reflexivity]. Qed.

Lemma Qle_bool_compat x x' y : x == x' -> Qle_bool x y = Qle_bool x' y.
Proof.
  intros Hx. destruct (Qle_bool x y) eqn:E1, (Qle_bool x' y) eqn:E2; try reflexivity;
    qbool; exfalso; lra.
Qed.

Lemma Qltb_compat x x' y : x == x' -> Qltb x y = Qltb x' y.
Proof. intros Hx. unfold Qltb. destruct (Qle_bool y x) eqn:E1, (Qle_bool y x') eqn:E2;
  try reflexivity; qbool; exfalso; lra.
Qed.

Lemma interp_pts_compat x x' pts : x == x' -> interp_pts x pts == interp_pts x' pts.
Proof.
  intros Hx. induction pts as [|[x1 y1] rest IH]; [reflexivity|].
  destruct rest as [|[x2 y2] rest']; [reflexivity|].
  rewrite !interp_pts_cons2, (Qle_bool_compat x x' x1 Hx), (Qltb_compat x x' x2 Hx).
  destruct (Qle_bool x' x1); [reflexivity|]. destruct (Qltb x' x2); [|exact IH].
  rewrite Hx. reflexivity.
Qed.

Lemma degree_compat v l x x' : x == x' -> degree v l x == degree v l x'.
Proof. intros Hx. unfold degree, interp_membership. apply interp_pts_compat, Hx. Qed.

Lemma insert_uniq_keep z y l : In z l -> In z (insert_uniq y l).
Proof.
  induction l as [|x t IH]; cbn [insert_uniq]; [intros []|].
  destruct (Qeq_bool y x); [tauto|]. destruct (Qle_bool y x); [intros H; right; exact H|].
  intros [<-|H]; [left; reflexivity|right; exact (IH H)].
Qed.

Lemma insert_uniq_has y l : exists z, In z (insert_uniq y l) /\ z == y.
Proof.
  induction l as [|x t IH]; cbn [insert_uniq].
  - exists y. split; [left; reflexivity|reflexivity].
  - destruct (Qeq_bool y x) eqn:E.
    + exists x. split; [left; reflexivity|]. apply Qeq_bool_iff in E. symmetry. exact E.
    + destruct (Qle_bool y x).
      * exists y. split; [left; reflexivity|reflexivity].
      * destruct IH as [z [Hz Ez]]. exists z. split; [right; exact Hz|exact Ez].
Qed.

Lemma union1d_has y a b : In y (a ++ b)%list -> exists z, In z (union1d a b) /\ z == y.
Proof.
  unfold union1d. induction (a ++ b)%list as [|y0 l IH]; [intros []|].
  cbn [fold_right]. intros [<-|H]; [apply insert_uniq_has|].
  destruct (IH H) as [z [Hz Ez]]. exists z. split; [apply insert_uniq_keep, Hz|exact Ez].
Qed.

Lemma arange_in lo n k : (lo <= k < lo + Z.of_nat n)%Z -> In (inject_Z k) (arange lo n).
Proof.
  revert lo. induction n as [|n IH]; intros lo Hk; [lia|].
  rewrite arange_S. destruct (Z.eq_dec k lo) as [->|Hne]; [left; reflexivity|].
  right. apply IH. lia.
Qed.

(** A sample point of the output universe, up to [==], is a point of the
    refined universe. *)
Lemma new_universe_has cuts k : (0 <= k <= 100)%Z ->
  exists z, In z (new_universe water_sprinkle cuts) /\ z == inject_Z k.
Proof.
  intros Hk. apply union1d_has, in_or_app. left.
  change (universe water_sprinkle) with (arange 0 101). apply arange_in. lia.
Qed.

Lemma fold_Qplus_ge (l : list Q) :
  (forall y, In y l -> 0 <= y) ->
  forall acc, acc <= fold_left Qplus l acc /\ forall y, In y l -> acc + y <= fold_left Qplus l acc.
Proof.
  induction l as [|a l IH]; intros Hl acc; simpl.
  - split; [apply Qle_refl|intros y []].
  - assert (Ha : 0 <= a) by (apply Hl; left; reflexivity).
    destruct (IH (fun y Hy => Hl y (or_intror Hy)) (acc + a)) as [G1 G2]. split.
    + lra.
    + intros y [<-|Hy]; [exact G1|]. specialize (G2 y Hy).
      assert (0 <= y) by (apply Hl; right; exact Hy). lra.
Qed.

(** A curve with a positive sample on the refined universe defuzzifies. *)
Lemma defuzz_water_pos cuts z :
  cut_terms water_sprinkle cuts <> [] ->
  In z (new_universe water_sprinkle cuts) -> 0 < output_at water_sprinkle cuts z ->
  exists v, defuzz water_sprinkle cuts = inr v.
Proof.
  intros Ht Hz Hpos. unfold defuzz.
  destruct (cut_terms water_sprinkle cuts) as [|l ls]; [contradiction|]. cbv zeta.
  assert (Hnn : forall y, In y (map (output_at water_sprinkle cuts) (new_universe water_sprinkle cuts)) -> 0 <= y).
  { intros y Hy. destruct (proj1 (in_map_iff _ _ _) Hy) as [x [<- _]]. apply output_at_nonneg. }
  destruct (fold_Qplus_ge _ Hnn 0) as [_ G].
  specialize (G _ (in_map _ _ _ Hz)).
  destruct (Qeq_bool (Qsum (map (output_at water_sprinkle cuts) (new_universe water_sprinkle cuts))) 0) eqn:E.
  - exfalso. apply Qeq_bool_iff in E. unfold Qsum in E. lra.
  - exists (centroid (new_universe water_sprinkle cuts) (map (output_at water_sprinkle cuts) (new_universe water_sprinkle cuts))).
    reflexivity.
Qed.

Lemma infer_memberships rs inp :
  infer rs inp = match memberships inp with
                 | None => inl MissingInput
                 | Some m => match compute_rules m rs (fresh_cuts water_sprinkle) with
                             | None => inl UnknownTerm
                             | Some cuts => defuzz water_sprinkle cuts
                             end
                 end.
Proof. reflexivity. Qed.

Lemma run_defuzz soil temp cuts :
  cuts_of (inputs_of soil temp) = Some cuts -> run soil temp = defuzz water_sprinkle cuts.
Proof.
  unfold cuts_of. rewrite memberships_inputs_of. intros Hc.
  unfold run. rewrite infer_memberships, memberships_inputs_of, Hc. reflexivity.
Qed.

Lemma cut_terms_water L M H :
  cut_terms water_sprinkle [("low", Some L); ("medium", Some M); ("high", Some H)] = ["low"; "medium"; "high"].
Proof. reflexivity. Qed.

Lemma output_at_ge_low L M H x :
  fmin L (degree water_sprinkle "low" x) <=
  output_at water_sprinkle [("low", Some L); ("medium", Some M); ("high", Some H)] x.
Proof.
  rewrite output_at_water. eapply Qle_trans; [|apply fmax_ub_l].
  eapply Qle_trans; [|apply fmax_ub_l]. apply fmax_ub_r.
Qed.

Lemma output_at_ge_medium L M H x :
  fmin M (degree water_sprinkle "medium" x) <=
  output_at water_sprinkle [("low", Some L); ("medium", Some M); ("high", Some H)] x.
Proof.
  rewrite output_at_water. eapply Qle_trans; [|apply fmax_ub_l]. apply fmax_ub_r.
Qed.

Lemma soil_50_degrees :
  degree soil_moisture "dry" (input_value soil_moisture 50) == 0 /\
  degree soil_moisture "moist" (input_value soil_moisture 50) == 1 /\
  degree soil_moisture "wet" (input_value soil_moisture 50) == 0.
Proof. split; [|split]; vm_compute; reflexivity. Qed.

Lemma water_degrees_at_peaks :
  degree water_sprinkle "low" (inject_Z 0) == 1 /\ degree water_sprinkle "medium" (inject_Z 50) == 1.
Proof. split; vm_compute; reflexivity. Qed.

(** C7 (amended): at soil moisture 50 and a temperature [t] of
    [[0, 50]], [dry] and [wet] have degree 0 and [moist] degree 1, so only
    [moist & cold] and [moist & warm] can fire.  For [t < 40] one of them
    does, and inference returns a crisp output in [[0, 100]]; for
    [t >= 40] [cold] and [warm] are 0 too, so [moist] and [hot] are the
    only nonzero degrees, no rule of the rule base combines them, every
    rule fires with strength 0, and inference raises [ZeroArea]. *)
Theorem C7_soil_50 (t : Q) (Ht : 0 <= t <= 50) :
  (t < 40 -> exists v, run 50 t = inr v /\ 0 <= v <= 100) /\
  (40 <= t ->
     degree soil_moisture "dry" (input_value soil_moisture 50) == 0 /\
     degree soil_moisture "moist" (input_value soil_moisture 50) == 1 /\
     degree soil_moisture "wet" (input_value soil_moisture 50) == 0 /\
     degree temperature "cold" (input_value temperature t) == 0 /\
     degree temperature "warm" (input_value temperature t) == 0 /\
     0 < degree temperature "hot" (input_value temperature t) /\
     (forall r, In r rule_base -> exists f, firing (mems_of 50 t) r = Some f /\ f == 0) /\
     run 50 t = inl ZeroArea).
Proof.
  assert (Et := temp_input_value t Ht).
  destruct soil_50_degrees as [Ddry [Dmoist Dwet]].
  destruct water_degrees_at_peaks as [Dlow Dmed].
  rewrite (run_defuzz 50 t _ (cuts_of_inputs_of 50 t)).
  match goal with |- context [defuzz water_sprinkle [("low", Some ?l); ("medium", Some ?m); ("high", Some ?h)]] =>
    set (L := l); set (M := m); set (Hh := h) end.
  assert (Rc := degree_range temperature "cold" (input_value temperature t) temperature_triangular).
  assert (Rw := degree_range temperature "warm" (input_value temperature t) temperature_triangular).
  assert (Rh := degree_range temperature "hot" (input_value temperature t) temperature_triangular).
  assert (Rct := degree_range temperature "cold" t temperature_triangular).
  assert (Rwt := degree_range temperature "warm" t temperature_triangular).
  assert (EL : L == degree temperature "cold" t).
  { unfold L. rewrite !rule_weight_r, Dwet, Dmoist, fmin_one_l, fmax_zero_l by lra.
    apply degree_compat, Et. }
  assert (EM : M == degree temperature "warm" t).
  { unfold M. rewrite !rule_weight_r, Ddry, Dmoist, fmin_one_l, fmin_zero_l, fmax_zero_r by lra.
    apply degree_compat, Et. }
  assert (EH : Hh == 0).
  { unfold Hh. rewrite !rule_weight_r, Ddry, fmin_zero_l by lra. reflexivity. }
  split.
  - intros Hlt.
    assert (Hct : cut_terms water_sprinkle [("low", Some L); ("medium", Some M); ("high", Some Hh)] <> [])
      by (rewrite cut_terms_water; discriminate).
    destruct (Qlt_le_dec t 20) as [Hc|Hc].
    + destruct (new_universe_has [("low", Some L); ("medium", Some M); ("high", Some Hh)] 0 ltac:(lia))
        as [z [Hz Ez]].
      assert (Hpos : 0 < output_at water_sprinkle [("low", Some L); ("medium", Some M); ("high", Some Hh)] z).
      { eapply Qlt_le_trans; [|apply output_at_ge_low].
        assert (HL1 : L <= 1) by (rewrite EL; lra).
        rewrite (degree_compat _ _ _ _ Ez), Dlow, (fmin_one_r L HL1).
        rewrite EL, cold_low_piece by lra. lra. }
      destruct (defuzz_water_pos _ _ Hct Hz Hpos) as [v Hv].
      exists v. split; [exact Hv|]. apply (defuzz_water_range _ _ Hv).
    + destruct (new_universe_has [("low", Some L); ("medium", Some M); ("high", Some Hh)] 50 ltac:(lia))
        as [z [Hz Ez]].
      assert (Hpos : 0 < output_at water_sprinkle [("low", Some L); ("medium", Some M); ("high", Some Hh)] z).
      { eapply Qlt_le_trans; [|apply output_at_ge_medium].
        assert (HM1 : M <= 1) by (rewrite EM; lra).
        rewrite (degree_compat _ _ _ _ Ez), Dmed, (fmin_one_r M HM1).
        rewrite EM. destruct (Qlt_le_dec t 25) as [H25|H25].
        - rewrite warm_rise_piece by lra. lra.
        - rewrite warm_fall_piece by lra. lra. }
      destruct (defuzz_water_pos _ _ Hct Hz Hpos) as [v Hv].
      exists v. split; [exact Hv|]. apply (defuzz_water_range _ _ Hv).
  - intros Hge.
    assert (Zc : degree temperature "cold" (input_value temperature t) == 0).
    { rewrite (degree_compat _ _ _ _ Et), cold_high_piece by lra. lra. }
    assert (Zw : degree temperature "warm" (input_value temperature t) == 0).
    { rewrite (degree_compat _ _ _ _ Et), warm_high_piece by lra. lra. }
    assert (Ph : 0 < degree temperature "hot" (input_value temperature t)).
    { rewrite (degree_compat _ _ _ _ Et), hot_high_piece by lra. lra. }
    split; [exact Ddry|]. split; [exact Dmoist|]. split; [exact Dwet|].
    split; [exact Zc|]. split; [exact Zw|]. split; [exact Ph|].
    split.
    + destruct (firings_mems_of 50 t) as [F1 [F2 [F3 [F4 F5]]]].
      intros r Hr. unfold rule_base in Hr.
      destruct Hr as [<-|[<-|[<-|[<-|[<-|[]]]]]].
      * eexists; split; [exact F1|]. rewrite Ddry. apply fmin_zero_l. lra.
      * eexists; split; [exact F2|]. rewrite Ddry. apply fmin_zero_l. lra.
      * eexists; split; [exact F3|]. rewrite Zw. apply fmin_zero_r. lra.
      * eexists; split; [exact F4|]. rewrite Zc. apply fmin_zero_r. lra.
      * eexists; split; [exact F5|]. exact Dwet.
    + apply defuzz_water_zero.
      * rewrite EL, cold_high_piece by lra. lra.
      * rewrite EM, warm_high_piece by lra. lra.
      * exact EH.
Qed.

Lemma C7_soil_50_witness :
  0 <= 45 <= 50 /\
  ((45 < 40 -> exists v, run 50 45 = inr v /\ 0 <= v <= 100) /\
   (40 <= 45 ->
      degree soil_moisture "dry" (input_value soil_moisture 50) == 0 /\
      degree soil_moisture "moist" (input_value soil_moisture 50) == 1 /\
      degree soil_moisture "wet" (input_value soil_moisture 50) == 0 /\
      degree temperature "cold" (input_value temperature 45) == 0 /\
      degree temperature "warm" (input_value temperature 45) == 0 /\
      0 < degree temperature "hot" (input_value temperature 45) /\
      (forall r, In r rule_base -> exists f, firing (mems_of 50 45) r = Some f /\ f == 0) /\
      run 50 45 = inl ZeroArea)).
Proof.
  split; [split; vm_compute; discriminate|].
  apply (C7_soil_50 45). split; vm_compute; discriminate.
Defined.

(** C7 (as stated) fails: at soil moisture 50 and temperature 45, inside
    [[0, 50]], no rule fires and inference raises [ZeroArea]. *)
Lemma C7_soil_50_counterexample :
  ~ (forall t, 0 <= t <= 50 -> exists v, run 50 t = inr v).
Proof.
  intros H. destruct (H 45 ltac:(split; vm_compute; discriminate)) as [v Hv].
  vm_compute in Hv. discriminate.
Qed.

(** ** The simulation object *)

Lemma Q_eqb_eq x y : Q_eqb x y = true -> x = y.
Proof.
  destruct x as [n d], y as [n' d']. unfold Q_eqb. simpl. intros H.
  apply andb_true_iff in H. destruct H as [H1 H2].
  apply Z.eqb_eq in H1. apply Pos.eqb_eq in H2. subst. reflexivity.
Qed.

Lemma inputs_eqb_eq a b : inputs_eqb a b = true -> a = b.
Proof.
  revert b. induction a as [|[l1 x1] a IH]; intros [|[l2 x2] b]; simpl; try discriminate; [reflexivity|].
  intros H. apply andb_true_iff in H. destruct H as [H H3]. apply andb_true_iff in H.
  destruct H as [H1 H2]. apply String.eqb_eq in H1. apply Q_eqb_eq in H2.
  rewrite (IH b H3). subst. reflexivity.
Qed.

Lemma lookup_key_in {A} k (l : list (Inputs * A)) v : lookup_key k l = Some v -> In (k, v) l.
Proof.
  induction l as [|[k' v'] l IH]; simpl; [discriminate|].
  destruct (inputs_eqb k k') eqn:E.
  - intros H. injection H as <-. apply inputs_eqb_eq in E. subst. left. reflexivity.
  - intros H. right. exact (IH H).
Qed.

Lemma set_inputs_twice a b x y :
  set_input (set_input [] soil_moisture a) temperature b = inputs_of a b /\
  set_input (set_input (inputs_of x y) soil_moisture a) temperature b = inputs_of a b.
Proof. split; reflexivity. Qed.

Lemma reset_first_water L M H :
  reset_first rule_base [("low", L); ("medium", M); ("high", H)] = [("low", L); ("medium", M); ("high", None)].
Proof. reflexivity. Qed.

Lemma fmax_absorb a b : fmax a (fmax b (fmax a b)) = fmax a b.
Proof. apply fmax_eq_of_Qeq. apply Qle_antisym; max_le. Qed.

(** Recomputing the rules from the membership values stored for the same
    inputs gives the same values: [fmax] with an equal old value changes
    nothing. *)
Lemma recompute_stored soil temp c :
  cuts_of (inputs_of soil temp) = Some c ->
  compute_rules (mems_of soil temp) rule_base (reset_first rule_base c) = Some c.
Proof.
  rewrite cuts_of_inputs_of. intros Hc. injection Hc as <-.
  destruct (firings_mems_of soil temp) as [H1 [H2 [H3 [H4 H5]]]].
  rewrite reset_first_water, (compute_rules_rule_base _ _ _ _ _ _ _ _ _ H1 H2 H3 H4 H5).
  unfold accum_value. rewrite !fmax_absorb. reflexivity.
Qed.

Lemma new_sim_inv : sim_inv new_sim.
Proof. split; [left; reflexivity|split; intros k c []]. Qed.

Lemma run_infer a b : run a b = infer rule_base (inputs_of a b).
Proof. reflexivity. Qed.

Lemma stored_cuts_ok s a b m :
  (forall k c, In (k, c) (sim_cuts s) -> cuts_of k = Some c) ->
  memberships (inputs_of a b) = Some m ->
  exists c, cuts_of (inputs_of a b) = Some c /\
              compute_rules m rule_base
                (reset_first rule_base match lookup_key (inputs_of a b) (sim_cuts s) with
                                       | Some c => c | None => fresh_cuts water_sprinkle end) = Some c.
Proof.
  intros Hc Hm. rewrite memberships_inputs_of in Hm. injection Hm as <-.
  destruct (lookup_key (inputs_of a b) (sim_cuts s)) as [c|] eqn:El.
  - exists c. assert (Hcc := Hc _ _ (lookup_key_in _ _ _ El)).
    split; [exact Hcc|apply recompute_stored, Hcc].
  - rewrite fresh_cuts_water, reset_first_water, <- fresh_cuts_water.
    pose proof (cuts_of_inputs_of a b) as Hcc. cbv zeta in Hcc.
    eexists. split; [exact Hcc|]. unfold cuts_of in Hcc. rewrite memberships_inputs_of in Hcc.
    exact Hcc.
Qed.

Lemma sim_compute_inv s a b :
  sim_inv s -> sim_inputs s = inputs_of a b ->
  fst (sim_compute s) = run a b /\ sim_inv (snd (sim_compute s)).
Proof.
  intros [Hi [Hc Ho]] Hk. unfold sim_compute. rewrite Hk.
  destruct (if existsb (inputs_eqb (inputs_of a b)) (sim_calculated s)
            then lookup_key (inputs_of a b) (sim_outputs s) else None) as [o|] eqn:Ec.
  - destruct (existsb (inputs_eqb (inputs_of a b)) (sim_calculated s)); [|discriminate].
    apply lookup_key_in, Ho in Ec. cbn [fst snd]. split; [symmetry; exact Ec|].
    split; [right; exists a, b; exact Hk|split; assumption].
  - destruct (memberships (inputs_of a b)) as [m|] eqn:Em;
      [|rewrite memberships_inputs_of in Em; discriminate].
    destruct (stored_cuts_ok s a b m Hc Em) as [c [Hcc Hcr]]. rewrite Hcr.
    assert (Er := run_defuzz a b c Hcc).
    destruct (defuzz water_sprinkle c) as [e|o] eqn:Ed.
    + cbn [fst snd]. split; [symmetry; exact Er|].
      split; [right; exists a, b; reflexivity|]. cbn [sim_cuts sim_outputs]. split; [|exact Ho].
      intros k c' [Hkc|Hin]; [injection Hkc as <- <-; exact Hcc|exact (Hc _ _ Hin)].
    + cbn [fst snd]. split; [symmetry; exact Er|].
      assert (Hs2 : sim_inv (mkSim (inputs_of a b) ((inputs_of a b, c) :: sim_cuts s)
                               ((inputs_of a b, o) :: sim_outputs s)
                               (inputs_of a b :: sim_calculated s) (S (sim_run s)))).
      { split; [right; exists a, b; reflexivity|]. cbn [sim_cuts sim_outputs]. split.
        - intros k c' [Hkc|Hin]; [injection Hkc as <- <-; exact Hcc|exact (Hc _ _ Hin)].
        - intros k o' [Hko|Hin]; [|exact (Ho _ _ Hin)].
          apply pair_equal_spec in Hko. destruct Hko as [Hk' Hoo]. subst k o'.
          rewrite <- run_infer. exact Er. }
      destruct (Nat.eqb (Nat.modulo (S (sim_run s)) flush_after_run) 0); [|exact Hs2].
      split; [right; exists a, b; reflexivity|]. split; intros k v [].
Qed.

Lemma sim_step_inv s a b :
  sim_inv s -> fst (sim_step s (a, b)) = run a b /\ sim_inv (snd (sim_step s (a, b))).
Proof.
  intros [Hi [Hc Ho]].
  assert (Ek : set_input (set_input (sim_inputs s) soil_moisture a) temperature b = inputs_of a b).
  { destruct Hi as [->|[x [y ->]]]; [exact (proj1 (set_inputs_twice a b a b))|exact (proj2 (set_inputs_twice a b x y))]. }
  unfold sim_step. cbn [fst snd]. rewrite Ek. apply sim_compute_inv; [|reflexivity].
  split; [right; exists a, b; reflexivity|split; assumption].
Qed.

Lemma sim_steps_inv s cases : sim_inv s -> sim_inv (sim_steps s cases).
Proof.
  revert s. induction cases as [|[a b] cases IH]; intros s Hs; simpl; [exact Hs|].
  apply IH. apply (proj2 (sim_step_inv s a b Hs)).
Qed.

(** C8: inference is deterministic.  On one simulation object, after any
    test cases [pre], computing the inputs [(soil, temp)], then any test
    cases [mid], then [(soil, temp)] again gives identical results (equal
    as reduced fractions, the same double), both equal to the inference on
    a fresh simulation [run soil temp], whether the second computation hits
    the cache, reuses the stored membership values or recomputes after a
    flush. *)
Theorem C8_deterministic (pre mid : list (Q * Q)) (soil temp : Q) :
  let s1 := sim_steps new_sim pre in
  let s2 := snd (sim_step s1 (soil, temp)) in
  fst (sim_step s1 (soil, temp)) = fst (sim_step (sim_steps s2 mid) (soil, temp)) /\
  fst (sim_step s1 (soil, temp)) = run soil temp.
Proof.
  intros s1 s2.
  assert (H1 : sim_inv s1) by apply sim_steps_inv, new_sim_inv.
  destruct (sim_step_inv s1 soil temp H1) as [E1 I2].
  assert (H3 : sim_inv (sim_steps s2 mid)) by (apply sim_steps_inv; exact I2).
  destruct (sim_step_inv _ soil temp H3) as [E3 _].
  rewrite E1, E3. split; reflexivity.
Qed.

(** ** Further properties of the pipeline *)





Lemma interp_pts_at_point (pts : list (Q * Q)) x y :
  StronglySorted Qlt (map fst pts) -> In (x, y) pts -> interp_pts x pts = y.
Proof.
  induction pts as [|[x1 y1] rest IH]; intros Hs Hin; [destruct Hin|].
  inversion Hs as [|? ? Hs' Hhd]; subst.
  destruct Hin as [Heq|Hin].
  - injection Heq as -> ->. destruct rest as [|[x2 y2] rest']; [reflexivity|].
    rewrite interp_pts_cons2. rewrite (proj2 (Qle_bool_iff x x) (Qle_refl x)). reflexivity.
  - destruct rest as [|[x2 y2] rest']; [destruct Hin|].
    rewrite Forall_forall in Hhd.
    assert (Hx1 : x1 < x) by (apply Hhd; apply (in_map fst _ (x, y)); exact Hin).
    assert (Hx2 : x2 <= x).
    { destruct Hin as [Heq|Hin]; [injection Heq as -> ->; apply Qle_refl|].
      inversion Hs' as [|? ? _ Hhd2]; subst. rewrite Forall_forall in Hhd2.
      apply Qlt_le_weak, Hhd2. apply (in_map fst _ (x, y)). exact Hin. }
    rewrite interp_pts_cons2.
    destruct (Qle_bool x x1) eqn:E1; [qbool; exfalso; lra|].
    destruct (Qltb x x2) eqn:E2; [qbool; exfalso; lra|].
    apply IH; assumption.
Qed.

Lemma map_fst_combine_map (u : list Q) (f : Q -> Q) : map fst (combine u (map f u)) = u.
Proof. induction u as [|a u IH]; simpl; [reflexivity|rewrite IH; reflexivity]. Qed.

(** Extra: on a strictly increasing universe, interpolating a sampled
    triangle at one of the sample points gives back the sample. *)
Theorem interp_trimf_at_samples (u : list Q) (a b c x : Q) :
  StronglySorted Qlt u -> In x u ->
  interp_membership u (trimf u (a, b, c)) x = trimf_at a b c x.
Proof.
  intros Hs Hx. unfold interp_membership, trimf. apply interp_pts_at_point.
  - rewrite map_fst_combine_map. exact Hs.
  - rewrite combine_map_same. apply (in_map (fun y => (y, trimf_at a b c y))). exact Hx.
Qed.

Lemma arange_sorted lo n : StronglySorted Qlt (arange lo n).
Proof.
  revert lo. induction n as [|n IH]; intros lo; [constructor|]. rewrite arange_S.
  constructor; [apply IH|]. apply Forall_forall. intros q Hq. apply arange_range in Hq.
  destruct Hq as [Hq _]. eapply Qlt_le_trans; [|exact Hq]. rewrite <- Zlt_Qlt. lia.
Qed.

Lemma interp_trimf_at_samples_witness :
  StronglySorted Qlt soil_universe /\ In 35 soil_universe /\
  interp_membership soil_universe (trimf soil_universe (20, 50, 80)) 35 = trimf_at 20 50 80 35.
Proof.
  assert (Hs : StronglySorted Qlt soil_universe) by apply arange_sorted.
  assert (Hi : In 35 soil_universe) by (vm_compute; tauto).
  split; [exact Hs|split; [exact Hi|]]. apply interp_trimf_at_samples; assumption.
Defined.

(** Extra: fuzzification of either input gives degrees in [[0, 1]] for
    every term and every value. *)
Theorem fuzz_degrees_range (x : Q) :
  Forall (fun p => 0 <= snd p <= 1) (fuzz soil_moisture x) /\
  Forall (fun p => 0 <= snd p <= 1) (fuzz temperature x).
Proof.
  split; apply Forall_forall; intros [l d] Hin; unfold fuzz in Hin;
    destruct (proj1 (in_map_iff _ _ _) Hin) as [[l' mf] [Heq Hmf]]; injection Heq as <- <-; cbn [snd];
    [assert (Ht := soil_moisture_triangular)|assert (Ht := temperature_triangular)];
    unfold triangular_terms in Ht; rewrite Forall_forall in Ht;
    destruct (Ht _ Hmf) as [a [b [c [Hab [Hbc Hm]]]]]; cbn [snd] in Hm; rewrite Hm;
    apply interp_trimf_range; assumption.
Qed.




(** Extra: [union1d] returns a strictly increasing list whose elements all
    come from its inputs and which holds every input value (up to [==]). *)
Theorem union1d_spec (a b : list Q) :
  StronglySorted Qlt (union1d a b) /\
  (forall z, In z (union1d a b) -> In z (a ++ b)%list) /\
  (forall y, In y (a ++ b)%list -> exists z, In z (union1d a b) /\ z == y).
Proof.
  split; [apply union1d_sorted|split; [intros z; apply union1d_in|intros y; apply union1d_has]].
Qed.







(** Extra: a successful defuzzification of any variable whose universe lies
    in [[0, hi]] gives a value in [[0, hi]]. *)
Theorem defuzz_in_universe_bounds (v : FuzzyVariable) (cuts : Cuts) (hi c : Q) :
  0 <= hi -> Forall (fun q => 0 <= q <= hi) (universe v) ->
  defuzz v cuts = inr c -> 0 <= c <= hi.
Proof.
  intros Hhi Hu Hd. unfold defuzz in Hd.
  destruct (cut_terms v cuts); [discriminate|]. cbv zeta in Hd.
  destruct (Qeq_bool _ 0); [discriminate|]. apply inr_inj in Hd. subst c.
  apply centroid_range; [exact Hhi|apply union1d_sorted|apply new_universe_range, Hu|].
  apply Forall_forall. intros y Hy. apply in_map_iff in Hy. destruct Hy as [x [<- _]].
  apply output_at_nonneg.
Qed.

Lemma defuzz_in_universe_bounds_witness :
  0 <= 100 /\ Forall (fun q => 0 <= q <= 100) (universe water_sprinkle) /\
  defuzz water_sprinkle [("low", Some 1); ("medium", None); ("high", None)] =
    inr (crisp_of (defuzz water_sprinkle [("low", Some 1); ("medium", None); ("high", None)])) /\
  0 <= crisp_of (defuzz water_sprinkle [("low", Some 1); ("medium", None); ("high", None)]) <= 100.
Proof.
  assert (H1 : 0 <= 100) by (vm_compute; discriminate).
  assert (H2 := water_universe_range).
  assert (H3 : defuzz water_sprinkle [("low", Some 1); ("medium", None); ("high", None)] =
    inr (crisp_of (defuzz water_sprinkle [("low", Some 1); ("medium", None); ("high", None)])))
    by (vm_compute; reflexivity).
  split; [exact H1|split; [exact H2|split; [exact H3|]]].
  exact (defuzz_in_universe_bounds water_sprinkle _ 100 _ H1 H2 H3).
Defined.

Lemma output_at_ge_high L M H x :
  fmin H (degree water_sprinkle "high" x) <=
  output_at water_sprinkle [("low", Some L); ("medium", Some M); ("high", Some H)] x.
Proof. rewrite output_at_water. apply fmax_ub_r. Qed.

Lemma fmin_pos c d : 0 < c -> 0 < d -> 0 < fmin c d.
Proof. intros Hc Hd. destruct (fmin_spec c d) as [[_ E]|[_ E]]; rewrite E; assumption. Qed.

Lemma water_peak_positive (c : Q) (l : string) (k : Z) (Hc : 0 < c) (Hk : (0 <= k <= 100)%Z)
  (Hd : degree water_sprinkle l (inject_Z k) == 1) L M H :
  fmin c (degree water_sprinkle l (inject_Z k)) <=
    output_at water_sprinkle [("low", Some L); ("medium", Some M); ("high", Some H)] (inject_Z k) ->
  exists v, defuzz water_sprinkle [("low", Some L); ("medium", Some M); ("high", Some H)] = inr v.
Proof.
  intros Hle. destruct (new_universe_has [("low", Some L); ("medium", Some M); ("high", Some H)] k Hk)
    as [z [Hz Ez]].
  apply (defuzz_water_pos _ z); [rewrite cut_terms_water; discriminate|exact Hz|].
  assert (Hpos : 0 < fmin c (degree water_sprinkle l (inject_Z k))) by (apply fmin_pos; [exact Hc|rewrite Hd; reflexivity]).
  assert (Eo : output_at water_sprinkle [("low", Some L); ("medium", Some M); ("high", Some H)] z ==
               output_at water_sprinkle [("low", Some L); ("medium", Some M); ("high", Some H)] (inject_Z k)).
  { rewrite !output_at_water. rewrite !(degree_compat _ _ _ _ Ez). reflexivity. }
  rewrite Eo. lra.
Qed.

(** Extra: with all three output terms activated at non-negative levels,
    defuzzification raises ZeroArea exactly when all three levels are zero,
    and returns a number otherwise. *)
Theorem water_zero_area_iff (L M H : Q) :
  0 <= L -> 0 <= M -> 0 <= H ->
  (defuzz water_sprinkle [("low", Some L); ("medium", Some M); ("high", Some H)] = inl ZeroArea <->
   L == 0 /\ M == 0 /\ H == 0) /\
  (~ (L == 0 /\ M == 0 /\ H == 0) ->
   exists v, defuzz water_sprinkle [("low", Some L); ("medium", Some M); ("high", Some H)] = inr v).
Proof.
  intros HL HM HH.
  assert (Hd0 : degree water_sprinkle "low" (inject_Z 0) == 1) by (vm_compute; reflexivity).
  assert (Hd50 : degree water_sprinkle "medium" (inject_Z 50) == 1) by (vm_compute; reflexivity).
  assert (Hd100 : degree water_sprinkle "high" (inject_Z 100) == 1) by (vm_compute; reflexivity).
  assert (Pos : ~ (L == 0 /\ M == 0 /\ H == 0) ->
     exists v, defuzz water_sprinkle [("low", Some L); ("medium", Some M); ("high", Some H)] = inr v).
  { intros Hn.
    destruct (Qlt_le_dec 0 L) as [PL|PL].
    - apply (water_peak_positive L "low" 0 PL ltac:(lia) Hd0). apply output_at_ge_low.
    - destruct (Qlt_le_dec 0 M) as [PM|PM].
      + apply (water_peak_positive M "medium" 50 PM ltac:(lia) Hd50). apply output_at_ge_medium.
      + destruct (Qlt_le_dec 0 H) as [PH|PH].
        * apply (water_peak_positive H "high" 100 PH ltac:(lia) Hd100). apply output_at_ge_high.
        * exfalso. apply Hn. split; [|split]; apply Qle_antisym; assumption. }
  split; [|exact Pos]. split.
  - intros Hz. destruct (Qeq_dec L 0) as [EL|EL]; [destruct (Qeq_dec M 0) as [EM|EM];
      [destruct (Qeq_dec H 0) as [EH|EH]|]|].
    + split; [exact EL|split; assumption].
    + destruct Pos as [v Hv]; [intros [_ [_ E]]; contradiction|congruence].
    + destruct Pos as [v Hv]; [intros [_ [E _]]; contradiction|congruence].
    + destruct Pos as [v Hv]; [intros [E _]; contradiction|congruence].
  - intros [EL [EM EH]]. apply defuzz_water_zero; assumption.
Qed.

Lemma water_zero_area_iff_witness :
  0 <= 0 /\ 0 <= 1 # 2 /\ 0 <= 0 /\
  exists v, defuzz water_sprinkle [("low", Some 0); ("medium", Some (1 # 2)); ("high", Some 0)] = inr v.
Proof.
  assert (A : 0 <= 0) by (vm_compute; discriminate).
  assert (B : 0 <= 1 # 2) by (vm_compute; discriminate).
  split; [exact A|split; [exact B|split; [exact A|]]].
  apply (proj2 (water_zero_area_iff 0 (1 # 2) 0 A B A)).
  intros [_ [E _]]. discriminate.
Defined.

Lemma mod_succ_flush r :
  Nat.modulo (S r) flush_after_run =
  if Nat.eqb (Nat.modulo (S r) flush_after_run) 0%nat then 0%nat else S (Nat.modulo r flush_after_run).
Proof.
  destruct (Nat.eqb (Nat.modulo (S r) flush_after_run) 0%nat) eqn:E.
  - apply Nat.eqb_eq in E. exact E.
  - apply Nat.eqb_neq in E. unfold flush_after_run in *.
    assert (Hb : (Nat.modulo r 1000 < 1000)%nat) by (apply Nat.mod_upper_bound; discriminate).
    replace (S r) with (r + 1)%nat in * by lia.
    rewrite Nat.Div0.add_mod in *.
    change (Nat.modulo 1 1000) with 1%nat in *.
    destruct (Nat.eq_dec (Nat.modulo r 1000 + 1)%nat 1000) as [Eq|Ne].
    + rewrite Eq in E. rewrite Nat.Div0.mod_same in E. contradiction.
    + rewrite Nat.mod_small by lia. lia.
Qed.

Lemma sim_compute_cache_inv s : cache_inv s -> cache_inv (snd (sim_compute s)).
Proof.
  intros [H1 H2]. unfold sim_compute.
  destruct (if existsb (inputs_eqb (sim_inputs s)) (sim_calculated s)
            then lookup_key (sim_inputs s) (sim_outputs s) else None) as [o|];
    [split; assumption|].
  destruct (memberships (sim_inputs s)) as [m|]; [|split; assumption]. cbv zeta.
  destruct (compute_rules m rule_base _) as [cuts|]; [|split; assumption].
  destruct (defuzz water_sprinkle cuts) as [e|o]; [split; assumption|].
  cbn [snd]. assert (Hm := mod_succ_flush (sim_run s)).
  destruct (Nat.eqb (Nat.modulo (S (sim_run s)) flush_after_run) 0%nat).
  - split; [exact (eq_sym Hm)|reflexivity].
  - split; cbn [flush sim_calculated sim_outputs sim_run List.length]; [rewrite Hm, H1; reflexivity|rewrite H2; reflexivity].
Qed.

Lemma sim_step_cache_inv s c : cache_inv s -> cache_inv (snd (sim_step s c)).
Proof.
  intros [H1 H2]. unfold sim_step. apply sim_compute_cache_inv. split; assumption.
Qed.

(** Extra: along any sequence of test cases on a simulation, the list of
    computed inputs has [_run mod flush_after_run] entries, as many as the
    stored outputs, so it never reaches [flush_after_run]. *)
Theorem sim_cache_size (cases : list (Q * Q)) :
  List.length (sim_calculated (sim_steps new_sim cases)) =
    Nat.modulo (sim_run (sim_steps new_sim cases)) flush_after_run /\
  List.length (sim_outputs (sim_steps new_sim cases)) =
    List.length (sim_calculated (sim_steps new_sim cases)) /\
  (List.length (sim_calculated (sim_steps new_sim cases)) < flush_after_run)%nat.
Proof.
  assert (H : forall s, cache_inv s -> cache_inv (sim_steps s cases)).
  { induction cases as [|c cases IH]; intros s Hs; [exact Hs|]. cbn [sim_steps].
    apply IH, sim_step_cache_inv, Hs. }
  destruct (H new_sim (conj eq_refl eq_refl)) as [H1 H2].
  split; [exact H1|split; [exact H2|]]. rewrite H1. apply Nat.mod_upper_bound. discriminate.
Qed.













